(** * A proof-of-work ledger with Merkle commitments: model and verification

    Shallow embedding of [src/blockchain/Blockchain.py].  The Python code is
    translated function by function:

    - [hashlib.sha256], [json.dumps], [round], [float.__repr__],
      [bytes.fromhex], [str.encode] and [str.startswith] are library
      functions of Python; they are given executable models in the modules
      [hashlib], [pyfloat], [json] and by the top-level helpers, so that
      every definition below can be evaluated on concrete inputs;
    - a Python [str] is a [string] whose characters are the code points
      below 256, [bytes] is a [list byte], [int] is [Z], [float] is the
      primitive binary64 type [float];
    - a Python exception is the [Raise] branch of [result];
    - [time.time()] is an explicit argument [now] of the operations that
      read the clock;
    - the mutable ledger object is threaded explicitly: an operation takes
      the state [Blockchain.t] and returns the new one. *)

From Stdlib Require Import ZArith NArith List String Ascii Bool Lia Floats.
From Stdlib Require Import Strings.Byte.
From Stdlib Require Import Permutation Sorted.
From Stdlib Require OrderedTypeEx.
Import ListNotations.

#[global] Set Warnings "-inexact-float".

Definition bytes := list byte.

(** ** Exceptions *)

Inductive exn := ValueError | IndexError.

Inductive result (A : Type) : Type :=
| Ok (a : A)
| Raise (e : exn).
Arguments Ok {A} a.
Arguments Raise {A} e.

Definition bind {A B : Type} (r : result A) (k : A -> result B) : result B :=
  match r with
  | Ok a => k a
  | Raise e => Raise e
  end.

Notation "x <- c1 ;; c2" := (bind c1 (fun x => c2))
  (at level 61, c1 at next level, right associativity).

(** [l[i]] for a non-negative index. *)
Definition getitem {A : Type} (l : list A) (i : nat) : result A :=
  match nth_error l i with
  | Some a => Ok a
  | None => Raise IndexError
  end.

(** ** hashlib.sha256 (FIPS 180-4), on 32-bit words carried by [N] *)

Module hashlib.
Local Open Scope N_scope.

Definition mask32 (x : N) : N := N.land x 0xffffffff.
Definition add32 (x y : N) : N := mask32 (x + y).
Definition rotr (n x : N) : N :=
  N.lor (N.shiftr x n) (mask32 (N.shiftl x (32 - n))).
Definition shr (n x : N) : N := N.shiftr x n.
Definition not32 (x : N) : N := N.lxor x 0xffffffff.
Definition Ch (x y z : N) : N := N.lxor (N.land x y) (N.land (not32 x) z).
Definition Maj (x y z : N) : N :=
  N.lxor (N.lxor (N.land x y) (N.land x z)) (N.land y z).
Definition bsig0 (x : N) : N := N.lxor (N.lxor (rotr 2 x) (rotr 13 x)) (rotr 22 x).
Definition bsig1 (x : N) : N := N.lxor (N.lxor (rotr 6 x) (rotr 11 x)) (rotr 25 x).
Definition ssig0 (x : N) : N := N.lxor (N.lxor (rotr 7 x) (rotr 18 x)) (shr 3 x).
Definition ssig1 (x : N) : N := N.lxor (N.lxor (rotr 17 x) (rotr 19 x)) (shr 10 x).

(** The constants are the first 32 bits of the fractional parts of roots
    of the first primes: cube roots of 64 primes for [K], square roots of 8
    primes for [H0]. *)
Definition is_prime (n : N) : bool :=
  (1 <? n) && forallb (fun d => negb (n mod d =? 0)) (map N.of_nat (seq 2 (N.to_nat n - 2))).

Fixpoint primes_from (fuel count : nat) (n : N) : list N :=
  match fuel, count with
  | S f, S c =>
      if is_prime n then n :: primes_from f c (n + 1) else primes_from f count (n + 1)
  | _, _ => []
  end.

(** The integer [k]-th root of [n], found bit by bit below [2^bits]. *)
Fixpoint root_bits (k : N) (bits : nat) (n r : N) : N :=
  match bits with
  | O => r
  | S b =>
      let c := r + 2 ^ N.of_nat b in
      if c ^ k <=? n then root_bits k b n c else root_bits k b n r
  end.

Definition frac_root (k shift p : N) : N :=
  mask32 (root_bits k 40 (N.shiftl p shift) 0).

Definition K : list N :=
  Eval vm_compute in map (frac_root 3 96) (primes_from 400 64 2).

Definition H0 : list N :=
  Eval vm_compute in map (frac_root 2 64) (primes_from 400 8 2).

(** The low [n] bytes of [x], most significant first. *)
Fixpoint be_bytes (n : nat) (x : N) : list N :=
  match n with
  | O => []
  | S n' => N.land (N.shiftr x (8 * N.of_nat n')) 0xff :: be_bytes n' x
  end.

(** Padding: a one bit, zeros up to 56 mod 64, the bit length on 8 bytes. *)
Definition pad (msg : list N) : list N :=
  let len := N.of_nat (List.length msg) in
  let k := (119 - len mod 64) mod 64 in
  msg ++ [0x80] ++ repeat 0 (N.to_nat k) ++ be_bytes 8 (8 * len).

Fixpoint words (fuel : nat) (bs : list N) : list N :=
  match fuel, bs with
  | S f, b0 :: b1 :: b2 :: b3 :: rest =>
      (N.shiftl b0 24 + N.shiftl b1 16 + N.shiftl b2 8 + b3) :: words f rest
  | _, _ => []
  end.

(** Message schedule, newest word first. *)
Fixpoint expand (n : nat) (rw : list N) : list N :=
  match n with
  | O => rw
  | S n' =>
      let w := add32 (add32 (ssig1 (nth 1 rw 0)) (nth 6 rw 0))
                     (add32 (ssig0 (nth 14 rw 0)) (nth 15 rw 0)) in
      expand n' (w :: rw)
  end.

Definition schedule (block : list N) : list N := rev (expand 48 (rev block)).

Definition round (st : list N) (kw : N * N) : list N :=
  match st with
  | [a; b; c; d; e; f; g; h] =>
      let t1 := add32 (add32 (add32 h (bsig1 e)) (add32 (Ch e f g) (fst kw))) (snd kw) in
      let t2 := add32 (bsig0 a) (Maj a b c) in
      [add32 t1 t2; a; b; c; add32 d t1; e; f; g]
  | _ => st
  end.

Definition compress (st block : list N) : list N :=
  map (fun p => add32 (fst p) (snd p))
      (combine st (fold_left round (combine K (schedule block)) st)).

Fixpoint blocks (fuel : nat) (st ws : list N) : list N :=
  match fuel with
  | O => st
  | S f =>
      match ws with
      | [] => st
      | _ => blocks f (compress st (firstn 16 ws)) (skipn 16 ws)
      end
  end.

Definition byte_of_N (n : N) : byte :=
  match Byte.of_N n with
  | Some b => b
  | None => x00
  end.

Definition digest (msg : bytes) : bytes :=
  let p := pad (map Byte.to_N msg) in
  let ws := words (List.length p) p in
  map byte_of_N (flat_map (be_bytes 4) (blocks (List.length ws) H0 ws)).
End hashlib.

(** ** Hexadecimal text *)

Definition hexdigit (n : N) : ascii :=
  ascii_of_N (if (n <? 10)%N then 48 + n else 87 + n).

(** [bytes.hex()]: two lowercase digits per byte. *)
Fixpoint hex (bs : bytes) : string :=
  match bs with
  | [] => EmptyString
  | b :: rest =>
      let n := Byte.to_N b in
      String (hexdigit (n / 16)) (String (hexdigit (n mod 16)) (hex rest))
  end.

Definition digit_value (c : ascii) : option N :=
  let n := N_of_ascii c in
  if ((48 <=? n) && (n <=? 57))%N then Some (n - 48)%N
  else if ((97 <=? n) && (n <=? 102))%N then Some (n - 87)%N
  else if ((65 <=? n) && (n <=? 70))%N then Some (n - 55)%N
  else None.

Definition is_space (c : ascii) : bool :=
  let n := N_of_ascii c in
  ((n =? 32) || ((9 <=? n) && (n <=? 13)))%N.

(** [bytes.fromhex]: white space between bytes is skipped, anything else that
    is not a pair of hexadecimal digits raises [ValueError]. *)
Fixpoint fromhex (s : string) : result bytes :=
  match s with
  | EmptyString => Ok []
  | String c rest =>
      if is_space c then fromhex rest
      else
        match digit_value c with
        | None => Raise ValueError
        | Some top =>
            match rest with
            | EmptyString => Raise ValueError
            | String c' rest' =>
                match digit_value c' with
                | None => Raise ValueError
                | Some bot =>
                    bs <- fromhex rest' ;;
                    Ok (hashlib.byte_of_N (16 * top + bot) :: bs)
                end
            end
        end
  end.

(** [str.encode()]: UTF-8 of code points below 256. *)
Fixpoint encode (s : string) : bytes :=
  match s with
  | EmptyString => []
  | String c rest =>
      let n := N_of_ascii c in
      if (n <? 128)%N then hashlib.byte_of_N n :: encode rest
      else hashlib.byte_of_N (192 + n / 64)
             :: hashlib.byte_of_N (128 + n mod 64) :: encode rest
  end.

(** [s.startswith(p)] *)
Definition startswith (s p : string) : bool := String.prefix p s.

(** ** Python floats: [round(x, 6)] and [repr(x)]

    Both are computed exactly on the value [m * 2^e] of the float: [round]
    is the decimal rounding, half to even, read back as the nearest float;
    [repr] is the shortest decimal text that reads back as the same float,
    the closest one when several have that length. *)

Module pyfloat.
Local Open Scope Z_scope.

(** The float nearest to [num/den] (ties to even), with sign [s]. *)
Definition nearest (s : bool) (num den : positive) : float :=
  SF2Prim (SFdiv prec emax (S754_finite s num 0) (S754_finite false den 0)).

Definition of_ratio (s : bool) (num den : Z) : float :=
  match num, den with
  | Zpos n, Zpos d => nearest s n d
  | _, _ => if s then neg_zero else zero
  end.

(** The value of a finite float as a fraction. *)
Definition fraction (m : positive) (e : Z) : Z * Z :=
  (Z.pos m * 2 ^ Z.max e 0, 2 ^ Z.max (- e) 0).

Definition div_half_even (num den : Z) : Z :=
  let q := num / den in
  let r := num mod den in
  match 2 * r ?= den with
  | Lt => q
  | Gt => q + 1
  | Eq => if Z.even q then q else q + 1
  end.

(** [round(x, 6)]; infinities and NaN round to themselves. *)
Definition round6 (x : float) : float :=
  match Prim2SF x with
  | S754_finite s m e =>
      let '(num, den) := fraction m e in
      of_ratio s (div_half_even (num * 10 ^ 6) den) (10 ^ 6)
  | _ => x
  end.

(** [num/den] divided by [10^E], as a fraction. *)
Definition scaled (num den E : Z) : Z * Z :=
  (num * 10 ^ Z.max (- E) 0, den * 10 ^ Z.max E 0).

(** A lower bound of the decimal exponent, from the binary one. *)
Definition decpt_estimate (num den : Z) : Z :=
  ((Z.log2 num - Z.log2 den - 1) * 30103) / 100000 - 2.

(** The least [d] from [d] on with [num/den < 10^d]. *)
Fixpoint decpt_from (fuel : nat) (d num den : Z) : Z :=
  match fuel with
  | O => d
  | S f =>
      let '(n, k) := scaled num den d in
      if n <? k then d else decpt_from f (d + 1) num den
  end.

(** Does the decimal [c * 10^E] read back as [x]? *)
Definition roundtrips (x : float) (s : bool) (c E : Z) : bool :=
  let '(n, k) := scaled 1 1 E in
  match SFcompare (Prim2SF (of_ratio s (c * k) n)) (Prim2SF x) with
  | Some Eq => true
  | _ => false
  end.

(** The shortest decimal [c * 10^E] that reads back as [x], trying
    [p = 1, 2, ...] digits; 17 digits always do. *)
Fixpoint shortest (fuel : nat) (p : Z) (x : float) (s : bool) (num den d : Z)
  : Z * Z :=
  let E := d - p in
  let '(n, k) := scaled num den E in
  let lo := n / k in
  let hi := lo + 1 in
  let oklo := roundtrips x s lo E in
  let okhi := roundtrips x s hi E in
  match fuel with
  | O => (div_half_even n k, E)
  | S f =>
      if oklo && okhi then (div_half_even n k, E)
      else if oklo then (lo, E)
      else if okhi then (hi, E)
      else shortest f (p + 1) x s num den d
  end.

Fixpoint digits_of (fuel : nat) (c : Z) (acc : string) : string :=
  match fuel with
  | O => acc
  | S f =>
      let acc' := String (ascii_of_N (Z.to_N (48 + c mod 10))) acc in
      if c <? 10 then acc' else digits_of f (c / 10) acc'
  end.

(** [str(c)] for an integer. *)
Definition str_int (c : Z) : string :=
  if c <? 0
  then String "-" (digits_of (S (Z.to_nat (Z.log2 (- c)))) (- c) EmptyString)
  else digits_of (S (Z.to_nat (Z.log2 c))) c EmptyString.

Fixpoint strip_zeros (fuel : nat) (c E : Z) : Z * Z :=
  match fuel with
  | O => (c, E)
  | S f =>
      if (c mod 10 =? 0) && (0 <? c) then strip_zeros f (c / 10) (E + 1)
      else (c, E)
  end.

Fixpoint zeros (n : nat) : string :=
  match n with
  | O => EmptyString
  | S n' => String "0" (zeros n')
  end.

Definition substr_from (n : nat) (s : string) : string :=
  substring n (String.length s - n) s.

(** The layout of [repr]: exponent form when the decimal point would be
    more than 16 digits to the right or more than 3 zeros to the left. *)
Definition format_r (s : bool) (ds : string) (decpt : Z) : string :=
  let n := Z.of_nat (String.length ds) in
  let body :=
    if (decpt <=? -4) || (16 <? decpt) then
      let e := decpt - 1 in
      let es := str_int (Z.abs e) in
      let es := if Z.abs e <? 10 then String "0" es else es in
      let frac := if 1 <? n then String "." (substr_from 1 ds) else EmptyString in
      append (substring 0 1 ds)
             (append frac (String "e" (String (if e <? 0 then "-" else "+") es)))
    else if decpt <=? 0 then
      append (String "0" (String "." (zeros (Z.to_nat (- decpt))))) ds
    else if decpt <? n then
      append (substring 0 (Z.to_nat decpt) ds)
             (String "." (substr_from (Z.to_nat decpt) ds))
    else
      append ds (append (zeros (Z.to_nat (decpt - n))) ".0") in
  if s then String "-" body else body.

(** [float.__repr__] *)
Definition repr (x : float) : string :=
  match Prim2SF x with
  | S754_nan => "nan"
  | S754_infinity s => if s then "-inf" else "inf"
  | S754_zero s => format_r s "0" 1
  | S754_finite s m e =>
      let '(num, den) := fraction m e in
      let d := decpt_from 700 (decpt_estimate num den) num den in
      let '(c, E) := shortest 16 1 x s num den d in
      let '(c, E) := strip_zeros 17 c E in
      let ds := str_int c in
      format_r s ds (Z.of_nat (String.length ds) + E)
  end.
End pyfloat.

(** ** json.dumps(obj, sort_keys=True, separators=(",", ":"))

    The objects hashed by the program are flat dictionaries with string
    keys; a dictionary is the list of its items in insertion order. *)

Module json.
Inductive value :=
| JInt (z : Z)
| JFloat (f : float)
| JStr (s : string).

Definition dict := list (string * value).

Definition quote : ascii := ascii_of_N 34.
Definition backslash : ascii := ascii_of_N 92.

(** Escaping with [ensure_ascii]: only the characters from space to tilde
    other than the quote and the backslash stand for themselves. *)
Definition escape (c : ascii) : string :=
  let n := N_of_ascii c in
  if (n =? 34)%N then String backslash (String quote EmptyString)
  else if (n =? 92)%N then String backslash (String backslash EmptyString)
  else if (n =? 10)%N then String backslash "n"
  else if (n =? 13)%N then String backslash "r"
  else if (n =? 9)%N then String backslash "t"
  else if (n =? 8)%N then String backslash "b"
  else if (n =? 12)%N then String backslash "f"
  else if ((32 <=? n) && (n <=? 126))%N then String c EmptyString
  else String backslash
         (String "u" (String "0" (String "0"
            (String (hexdigit (n / 16)) (String (hexdigit (n mod 16)) EmptyString))))).

Fixpoint escape_all (s : string) : string :=
  match s with
  | EmptyString => EmptyString
  | String c rest => append (escape c) (escape_all rest)
  end.

Definition dumps_str (s : string) : string :=
  String quote (append (escape_all s) (String quote EmptyString)).

Definition dumps_float (f : float) : string :=
  match Prim2SF f with
  | S754_nan => "NaN"
  | S754_infinity s => if s then "-Infinity" else "Infinity"
  | _ => pyfloat.repr f
  end.

Definition dumps_value (v : value) : string :=
  match v with
  | JInt z => pyfloat.str_int z
  | JFloat f => dumps_float f
  | JStr s => dumps_str s
  end.

(** [sort_keys]: a stable insertion sort on the keys. *)
Fixpoint insert_item (kv : string * value) (l : dict) : dict :=
  match l with
  | [] => [kv]
  | kv' :: rest =>
      if String.ltb (fst kv) (fst kv') then kv :: l
      else kv' :: insert_item kv rest
  end.

Definition sort_keys (d : dict) : dict := fold_left (fun acc kv => insert_item kv acc) d [].

Definition dumps_item (kv : string * value) : string :=
  append (dumps_str (fst kv)) (String ":" (dumps_value (snd kv))).

Fixpoint join (items : list string) : string :=
  match items with
  | [] => EmptyString
  | [x] => x
  | x :: rest => append x (String "," (join rest))
  end.

Definition dumps (d : dict) : string :=
  String "{" (append (join (map dumps_item (sort_keys d))) "}").
End json.

(** ** Hash utilities of the program *)

Definition sha256 (x : bytes) : string := hex (hashlib.digest x).

(** Hash of a JSON object with sorted keys. *)
Definition jhash (obj : json.dict) : string :=
  sha256 (encode (json.dumps obj)).

(** The [for i in range(0, len(layer), 2)] loop of [merkle_root]. *)
Fixpoint pair_hashes (layer : list string) : result (list string) :=
  match layer with
  | [] => Ok []
  | [x] => _ <- fromhex x ;; Raise IndexError
  | x :: y :: rest =>
      l <- fromhex x ;;
      r <- fromhex y ;;
      nxt <- pair_hashes rest ;;
      Ok (sha256 (l ++ r) :: nxt)
  end.

(** [layer.append(layer[-1])] when the length is odd. *)
Definition pad_odd (layer : list string) : list string :=
  if Nat.odd (List.length layer) then layer ++ [last layer EmptyString] else layer.

(** The [while len(layer) > 1] loop.  Every turn at least halves the layer,
    so [length layer] turns are enough (see [merkle_while_unroll]); the branch
    of exhausted fuel is never taken from [merkle_root]. *)
Fixpoint merkle_while (fuel : nat) (layer : list string) : result string :=
  match fuel with
  | O => getitem layer 0
  | S f =>
      if 1 <? List.length layer then
        nxt <- pair_hashes (pad_odd layer) ;;
        merkle_while f nxt
      else getitem layer 0
  end.

Definition merkle_root (hashes : list string) : result string :=
  match hashes with
  | [] => Ok (sha256 [])
  | _ => merkle_while (List.length hashes) hashes
  end.

Definition DIFFICULTY_PREFIX : string := "00000".

(** ** Main structures *)

Module Transaction.
Record t := mk {
  sender : string;
  recipient : string;
  amount : float
}.

(** [asdict(self)] *)
Definition asdict (self : t) : json.dict :=
  [ ("sender"%string, json.JStr (sender self));
    ("recipient"%string, json.JStr (recipient self));
    ("amount"%string, json.JFloat (amount self)) ].

Definition hash (self : t) : string := jhash (asdict self).
End Transaction.

Module Block.
Record t := mk {
  index : Z;
  timestamp : float;
  prev_hash : string;
  merkle_root : string;
  nonce : Z;
  transactions : list Transaction.t
}.

Definition header_dict (self : t) : json.dict :=
  [ ("index"%string, json.JInt (index self));
    ("timestamp"%string, json.JFloat (pyfloat.round6 (timestamp self)));
    ("prev_hash"%string, json.JStr (prev_hash self));
    ("merkle_root"%string, json.JStr (merkle_root self));
    ("nonce"%string, json.JInt (nonce self)) ].

Definition hash (self : t) : string := jhash (header_dict self).

(** Assignments to one attribute of a block. *)
Definition set_index (v : Z) (b : t) : t :=
  mk v (timestamp b) (prev_hash b) (merkle_root b) (nonce b) (transactions b).
Definition set_timestamp (v : float) (b : t) : t :=
  mk (index b) v (prev_hash b) (merkle_root b) (nonce b) (transactions b).
Definition set_prev_hash (v : string) (b : t) : t :=
  mk (index b) (timestamp b) v (merkle_root b) (nonce b) (transactions b).
Definition set_merkle_root (v : string) (b : t) : t :=
  mk (index b) (timestamp b) (prev_hash b) v (nonce b) (transactions b).
Definition set_nonce (v : Z) (b : t) : t :=
  mk (index b) (timestamp b) (prev_hash b) (merkle_root b) v (transactions b).
Definition set_transactions (v : list Transaction.t) (b : t) : t :=
  mk (index b) (timestamp b) (prev_hash b) (merkle_root b) (nonce b) v.
End Block.

(** ** The ledger *)

Module Blockchain.
Record t := mk {
  chain : list Block.t;
  mem_pool : list Transaction.t
}.

(** Creates the genesis block and appends it to the chain. *)
Definition create_genesis (now : float) (self : t) : result t :=
  let genesis_tx := Transaction.mk "network" "satoshi" 50.0 in
  root <- merkle_root [Transaction.hash genesis_tx] ;;
  let genesis :=
    Block.mk 0 now "0000000000000000000000000000000000000000000000000000000000000000"
             root 0 [genesis_tx] in
  Ok (mk (chain self ++ [genesis]) (mem_pool self)).

(** [Blockchain()] *)
Definition init (now : float) : result t := create_genesis now (mk [] []).

(** [self.chain[-1]] *)
Definition last_block (self : t) : result Block.t :=
  match chain self with
  | [] => Raise IndexError
  | b :: rest => Ok (last rest b)
  end.

Definition add_transaction (self : t) (sender recipient : string) (amount : float) : t :=
  mk (chain self) (mem_pool self ++ [Transaction.mk sender recipient amount]).

(** The loop [for n in range(max_tries)] of [mine], entered with [tries]
    turns left and the candidate nonce [n]; it returns the block that met
    the difficulty, if one did. *)
Fixpoint search (tries : nat) (n : Z) (block : Block.t) : option Block.t :=
  match tries with
  | O => None
  | S k =>
      let block := Block.set_nonce n block in
      let h := Block.hash block in
      if startswith h DIFFICULTY_PREFIX then Some block
      else search k (n + 1)%Z block
  end.

(** Mines a new block; returns the value of the call and the new state. *)
Definition mine (self : t) (miner_address : string) (now : float) (max_tries : Z)
  : result (option Block.t * t) :=
  let reward_tx := Transaction.mk "network" miner_address 6.25 in
  let txs := [reward_tx] ++ mem_pool self in
  let tx_hashes := map Transaction.hash txs in
  root <- merkle_root tx_hashes ;;
  last <- last_block self ;;
  let block :=
    Block.mk (Z.of_nat (List.length (chain self))) now (Block.hash last) root 0 txs in
  match search (Z.to_nat max_tries) 0 block with
  | Some block => Ok (Some block, mk (chain self ++ [block]) [])
  | None => Ok (None, self)
  end.

(** The body of the validation loop for the indices [idxs]. *)
Fixpoint valid_loop (chain : list Block.t) (idxs : list nat) : result bool :=
  match idxs with
  | [] => Ok true
  | i :: rest =>
      b <- getitem chain i ;;
      prev <- getitem chain (i - 1) ;;
      if negb (String.eqb (Block.prev_hash b) (Block.hash prev)) then Ok false
      else if negb (startswith (Block.hash b) DIFFICULTY_PREFIX) then Ok false
      else
        calc_root <- merkle_root (map Transaction.hash (Block.transactions b)) ;;
        if negb (String.eqb calc_root (Block.merkle_root b)) then Ok false
        else valid_loop chain rest
  end.

(** Validates the whole chain: [for i in range(1, len(self.chain))]. *)
Definition valid_chain (self : t) : result bool :=
  valid_loop (chain self) (seq 1 (List.length (chain self) - 1)).
End Blockchain.


(** ** Notions used to state the properties *)

(** Strings made of pairs of hexadecimal digits only, such as the 64
    characters of a digest. *)
Definition is_hexdigit (c : ascii) : bool :=
  match digit_value c with
  | Some _ => true
  | None => false
  end.

Fixpoint hexpairs (s : string) : bool :=
  match s with
  | EmptyString => true
  | String c (String c' rest) => is_hexdigit c && is_hexdigit c' && hexpairs rest
  | String _ EmptyString => false
  end.

Definition all_hex (layer : list string) : Prop :=
  Forall (fun h => hexpairs h = true) layer.

(** Reference definition of the Merkle root, after the specification: the
    raw bytes of a digest, the pairwise reduction of a layer whose last
    element is duplicated when the length is odd, and the root as the last
    digest standing. *)
Module MerkleSpec.
Definition nibble (c : ascii) : N :=
  match digit_value c with
  | Some v => v
  | None => 0%N
  end.

Fixpoint decode (s : string) : bytes :=
  match s with
  | String c (String c' rest) =>
      hashlib.byte_of_N (16 * nibble c + nibble c') :: decode rest
  | _ => []
  end.

Definition duplicate_last (layer : list string) : list string :=
  match Nat.even (List.length layer), rev layer with
  | false, h :: _ => layer ++ [h]
  | _, _ => layer
  end.

Fixpoint reduce (layer : list string) : list string :=
  match layer with
  | l :: r :: rest => sha256 (decode l ++ decode r) :: reduce rest
  | _ => []
  end.

Inductive root : list string -> string -> Prop :=
| root_empty (r : string) : r = sha256 [] -> root [] r
| root_single (h : string) : root [h] h
| root_reduce (layer : list string) (r : string) :
    2 <= List.length layer ->
    root (reduce (duplicate_last layer)) r ->
    root layer r.
End MerkleSpec.

(** The three checks of the validation loop on a block and its predecessor. *)
Definition linked (prev b : Block.t) : Prop :=
  Block.prev_hash b = Block.hash prev.

Definition proof_of_work (b : Block.t) : Prop :=
  startswith (Block.hash b) DIFFICULTY_PREFIX = true.

Definition merkle_consistent (b : Block.t) : Prop :=
  merkle_root (map Transaction.hash (Block.transactions b)) = Ok (Block.merkle_root b).

Definition block_ok (prev b : Block.t) : Prop :=
  linked prev b /\ proof_of_work b /\ merkle_consistent b.

(** The same checks as a boolean, with the recomputed root. *)
Definition root_of (txs : list Transaction.t) : string :=
  match merkle_root (map Transaction.hash txs) with
  | Ok r => r
  | Raise _ => EmptyString
  end.

Definition check_block (prev b : Block.t) : bool :=
  String.eqb (Block.prev_hash b) (Block.hash prev)
  && startswith (Block.hash b) DIFFICULTY_PREFIX
  && String.eqb (root_of (Block.transactions b)) (Block.merkle_root b).

Definition check_at (chain : list Block.t) (i : nat) : bool :=
  match nth_error chain i, nth_error chain (i - 1) with
  | Some b, Some prev => check_block prev b
  | _, _ => false
  end.

Fixpoint chain_ok (prev : Block.t) (rest : list Block.t) : bool :=
  match rest with
  | [] => true
  | b :: rest' => check_block prev b && chain_ok b rest'
  end.

(** Ledger states reachable from construction by the public operations. *)
Inductive reachable : Blockchain.t -> Prop :=
| reach_init (now : float) (st : Blockchain.t) :
    Blockchain.init now = Ok st -> reachable st
| reach_add (st : Blockchain.t) (sender recipient : string) (amount : float) :
    reachable st -> reachable (Blockchain.add_transaction st sender recipient amount)
| reach_mine (st st' : Blockchain.t) (miner : string) (now : float) (max_tries : Z)
             (ret : option Block.t) :
    reachable st ->
    Blockchain.mine st miner now max_tries = Ok (ret, st') ->
    reachable st'.

(** [chain[i] = f(chain[i])]: an assignment to attributes of the block at
    position [i]. *)
Fixpoint update {A : Type} (i : nat) (f : A -> A) (l : list A) : list A :=
  match l, i with
  | [], _ => []
  | x :: rest, O => f x :: rest
  | x :: rest, S i' => x :: update i' f rest
  end.

Definition tamper (i : nat) (f : Block.t -> Block.t) (st : Blockchain.t) : Blockchain.t :=
  Blockchain.mk (update i f (Blockchain.chain st)) (Blockchain.mem_pool st).

(** The genesis block, as [create_genesis] builds it at time [now]. *)
Definition genesis_tx : Transaction.t := Transaction.mk "network" "satoshi" 50.0.

Definition genesis_block (now : float) : Block.t :=
  Block.mk 0 now "0000000000000000000000000000000000000000000000000000000000000000"
           (Transaction.hash genesis_tx) 0 [genesis_tx].

(** The invariant of reachable ledgers: the chain starts with a genesis
    block, every later block passes the checks against its predecessor, and
    every block stores the Merkle root of its transactions. *)
Definition ledger_inv (st : Blockchain.t) : Prop :=
  exists now rest,
    Blockchain.chain st = genesis_block now :: rest /\
    chain_ok (genesis_block now) rest = true /\
    Forall merkle_consistent (Blockchain.chain st).

(** The reward transaction of [mine] and its candidate block with nonce [n]. *)
Definition reward (miner : string) : Transaction.t :=
  Transaction.mk "network" miner 6.25.

Definition candidate (st : Blockchain.t) (miner : string) (now : float)
           (last : Block.t) (root : string) (n : Z) : Block.t :=
  Block.mk (Z.of_nat (List.length (Blockchain.chain st))) now (Block.hash last) root n
           (reward miner :: Blockchain.mem_pool st).

(** Assignments to one stored field of a block: a header field, or the
    amount of the transaction at position [j]. *)
Inductive mutation :=
| SetIndex (v : Z)
| SetTimestamp (v : float)
| SetPrevHash (v : string)
| SetMerkleRoot (v : string)
| SetNonce (v : Z)
| SetAmount (j : nat) (v : float).

Definition set_amount (v : float) (tx : Transaction.t) : Transaction.t :=
  Transaction.mk (Transaction.sender tx) (Transaction.recipient tx) v.

Definition mutate (m : mutation) (b : Block.t) : Block.t :=
  match m with
  | SetIndex v => Block.set_index v b
  | SetTimestamp v => Block.set_timestamp v b
  | SetPrevHash v => Block.set_prev_hash v b
  | SetMerkleRoot v => Block.set_merkle_root v b
  | SetNonce v => Block.set_nonce v b
  | SetAmount j v =>
      Block.set_transactions (update j (set_amount v) (Block.transactions b)) b
  end.

(** The mutation writes a value different from the stored one. *)
Definition changes (m : mutation) (b : Block.t) : Prop :=
  match m with
  | SetIndex v => v <> Block.index b
  | SetTimestamp v => v <> Block.timestamp b
  | SetPrevHash v => v <> Block.prev_hash b
  | SetMerkleRoot v => v <> Block.merkle_root b
  | SetNonce v => v <> Block.nonce b
  | SetAmount j v =>
      exists tx, nth_error (Block.transactions b) j = Some tx /\ v <> Transaction.amount tx
  end.

(** When validation notices a write of a different value to the block at
    position [i] of a chain of [len] blocks.  A new [prev_hash], a new Merkle
    root and a new amount are always noticed.  A new index or nonce is noticed
    unless the block is the last one and its new header digest meets the
    difficulty.  A new timestamp is noticed when the new header digest fails
    the difficulty, or when the block is not the last one and the timestamp
    rounds to another value than the stored one. *)
Definition detected (len i : nat) (m : mutation) (b : Block.t) : Prop :=
  match m with
  | SetPrevHash _ | SetMerkleRoot _ | SetAmount _ _ => True
  | SetIndex _ | SetNonce _ =>
      S i < len \/ ~ proof_of_work (mutate m b)
  | SetTimestamp v =>
      (S i < len /\ pyfloat.round6 v <> pyfloat.round6 (Block.timestamp b))
      \/ ~ proof_of_work (mutate m b)
  end.

(** The canonical text of a header: the five fields, sorted by name. *)
Definition header_text (b : Block.t) : string :=
  String.concat EmptyString
    [ "{";
      json.dumps_str "index"; ":"; pyfloat.str_int (Block.index b); ",";
      json.dumps_str "merkle_root"; ":"; json.dumps_str (Block.merkle_root b); ",";
      json.dumps_str "nonce"; ":"; pyfloat.str_int (Block.nonce b); ",";
      json.dumps_str "prev_hash"; ":"; json.dumps_str (Block.prev_hash b); ",";
      json.dumps_str "timestamp"; ":";
      json.dumps_float (pyfloat.round6 (Block.timestamp b));
      "}" ]%string.

(** Ledgers used to exercise the statements: a fresh ledger, the same with
    two submitted transactions, and the ledger after a block was mined, which
    happens at nonce 3. *)
Definition ledger0 : Blockchain.t :=
  Blockchain.mk [genesis_block 1700000000.0] [].

Definition ledger1 : Blockchain.t :=
  Blockchain.add_transaction (Blockchain.add_transaction ledger0 "Alice" "Bob" 1.2)
                             "Carol" "Dave" 0.7.

Definition block1 : Block.t :=
  Block.mk 1 1701557244.25
           "7984373956606655ba6f6bb23c5308f9e91f86a6f904ea6bbb4b732031478c45"
           "ca767e56c380e3c31c74f3e44604bfc82e7a8e268f774cf387c0a45467aef2c8"
           3
           [ Transaction.mk "network" "miner1" 6.25;
             Transaction.mk "Alice" "Bob" 1.2;
             Transaction.mk "Carol" "Dave" 0.7 ].

Definition ledger2 : Blockchain.t :=
  Blockchain.mk [genesis_block 1700000000.0; block1] [].

(** ** Notions used by the further properties *)

(** A ledger [st'] obtained from [st] by any number of submissions and
    calls of [mine] that return. *)
Inductive evolves (st : Blockchain.t) : Blockchain.t -> Prop :=
| ev_refl : evolves st st
| ev_add (st' : Blockchain.t) (sender recipient : string) (amount : float) :
    evolves st st' ->
    evolves st (Blockchain.add_transaction st' sender recipient amount)
| ev_mine (st' st'' : Blockchain.t) (miner : string) (now : float) (max_tries : Z)
          (ret : option Block.t) :
    evolves st st' ->
    Blockchain.mine st' miner now max_tries = Ok (ret, st'') ->
    evolves st st''.

(** Successive calls of [add_transaction]. *)
Definition submit_all (st : Blockchain.t) (l : list (string * string * float))
  : Blockchain.t :=
  fold_left (fun s x => Blockchain.add_transaction s (fst (fst x)) (snd (fst x)) (snd x))
            l st.

Definition as_transaction (x : string * string * float) : Transaction.t :=
  Transaction.mk (fst (fst x)) (snd (fst x)) (snd x).

Definition example_submissions : list (string * string * float) :=
  [ ("Alice"%string, "Bob"%string, 1.2%float);
    ("Carol"%string, "Dave"%string, 0.7%float) ].

(** The text of a digest: 64 hexadecimal characters. *)
Definition is_digest (s : string) : Prop :=
  hexpairs s = true /\ String.length s = 64.

(** The order of [sort_keys] on the items of a dictionary. *)
Definition key_lt (x y : string * json.value) : Prop :=
  String.ltb (fst x) (fst y) = true.

(** The canonical text of a transaction: its three fields, sorted by name. *)
Definition transaction_text_of (t : Transaction.t) : string :=
  String.concat EmptyString
    [ "{";
      json.dumps_str "amount"; ":"; json.dumps_float (Transaction.amount t); ",";
      json.dumps_str "recipient"; ":"; json.dumps_str (Transaction.recipient t); ",";
      json.dumps_str "sender"; ":"; json.dumps_str (Transaction.sender t);
      "}" ]%string.

(** ** The display view of the chain *)

#[global] Set Warnings "-register-all".

(** The values of the dictionaries that [to_dict] builds. *)
Inductive pyobj :=
| PInt (z : Z)
| PFloat (f : float)
| PStr (s : string)
| PList (l : list pyobj)
| PDict (d : list (string * pyobj)).

Definition of_json (v : json.value) : pyobj :=
  match v with
  | json.JInt z => PInt z
  | json.JFloat f => PFloat f
  | json.JStr s => PStr s
  end.

Definition of_dict (d : json.dict) : list (string * pyobj) :=
  map (fun kv => (fst kv, of_json (snd kv))) d.

(** Serialises the blockchain for display: per block, the items of
    [header_dict], then the header digest and the transactions. *)
Definition to_dict (self : Blockchain.t) : list (list (string * pyobj)) :=
  map (fun b =>
         of_dict (Block.header_dict b)
           ++ [ ("hash"%string, PStr (Block.hash b));
                ("transactions"%string,
                 PList (map (fun t => PDict (of_dict (Transaction.asdict t)))
                            (Block.transactions b))) ])
      (Blockchain.chain self).

(** [d[k]], or nothing when the key is missing. *)
Fixpoint lookup (k : string) (d : list (string * pyobj)) : option pyobj :=
  match d with
  | [] => None
  | (k', v) :: rest => if String.eqb k k' then Some v else lookup k rest
  end.

(** ** What is hashed to validate a block *)

(** The digest of a text, as [jhash] takes it. *)
Definition text_digest (s : string) : string := sha256 (encode s).

(** The byte strings hashed by one turn of the loop of [merkle_root] on a
    layer of digests, and by all its turns. *)
Fixpoint pair_inputs (layer : list string) : list bytes :=
  match layer with
  | l :: r :: rest => (MerkleSpec.decode l ++ MerkleSpec.decode r) :: pair_inputs rest
  | _ => []
  end.

Fixpoint tree_inputs (fuel : nat) (layer : list string) : list bytes :=
  match fuel with
  | O => []
  | S f =>
      if 1 <? List.length layer then
        pair_inputs (pad_odd layer) ++ tree_inputs f (MerkleSpec.reduce (pad_odd layer))
      else []
  end.

(** The floats, the texts and the Merkle nodes that are serialized and
    hashed when a block is validated. *)
Definition hashed_floats (b : Block.t) : list float :=
  pyfloat.round6 (Block.timestamp b) :: map Transaction.amount (Block.transactions b).

Definition hashed_texts (b : Block.t) : list string :=
  header_text b :: map transaction_text_of (Block.transactions b).

Definition hashed_nodes (b : Block.t) : list bytes :=
  tree_inputs (List.length (Block.transactions b))
              (map Transaction.hash (Block.transactions b)).

(** The function [h] has no collision among the elements of [l]. *)
Definition no_collisions {A : Type} (h : A -> string) (l : list A) : Prop :=
  forall x y, In x l -> In y l -> h x = h y -> x = y.

(** The same, decided by comparing all pairs. *)
Definition collision_check {A : Type} (eqb : A -> A -> bool) (h : A -> string)
           (l : list A) : bool :=
  let hs := map (fun x => (x, h x)) l in
  forallb (fun p =>
             forallb (fun q => implb (String.eqb (snd p) (snd q)) (eqb (fst p) (fst q))) hs)
          hs.

(** Equality of floats as values of the format: the two zeros differ. *)
Definition spec_eqb (x y : spec_float) : bool :=
  match x, y with
  | S754_zero s, S754_zero s' => Bool.eqb s s'
  | S754_infinity s, S754_infinity s' => Bool.eqb s s'
  | S754_nan, S754_nan => true
  | S754_finite s m e, S754_finite s' m' e' =>
      Bool.eqb s s' && Pos.eqb m m' && Z.eqb e e'
  | _, _ => false
  end.

Definition float_eqb (x y : float) : bool := spec_eqb (Prim2SF x) (Prim2SF y).

Fixpoint bytes_eqb (x y : bytes) : bool :=
  match x, y with
  | [], [] => true
  | a :: x', b :: y' => Byte.eqb a b && bytes_eqb x' y'
  | _, _ => false
  end.

(** Reading a decimal text back. *)
Fixpoint num_of (s : string) (acc : Z) : Z :=
  match s with
  | EmptyString => acc
  | String d s' => num_of s' (10 * acc + (Z.of_N (N_of_ascii d) - 48))
  end.

Definition int_of (s : string) : Z :=
  match s with
  | EmptyString => 0
  | String d s' => if Ascii.eqb d "-" then - num_of s' 0 else num_of s 0
  end.

(** Layers of digests, as the layers of a Merkle tree are. *)
Definition digests (layer : list string) : Prop :=
  Forall (fun h => exists x, h = sha256 x) layer.

(** Reading one escaped character back from the front of a text;
    nothing is read at the closing quote. *)
Definition unescape (s : string) : option (ascii * string) :=
  match s with
  | EmptyString => None
  | String c rest =>
      if Ascii.eqb c json.quote then None
      else if Ascii.eqb c json.backslash then
        match rest with
        | EmptyString => None
        | String e rest' =>
            if Ascii.eqb e json.quote then Some (json.quote, rest')
            else if Ascii.eqb e json.backslash then Some (json.backslash, rest')
            else if Ascii.eqb e "n" then Some (ascii_of_N 10, rest')
            else if Ascii.eqb e "r" then Some (ascii_of_N 13, rest')
            else if Ascii.eqb e "t" then Some (ascii_of_N 9, rest')
            else if Ascii.eqb e "b" then Some (ascii_of_N 8, rest')
            else if Ascii.eqb e "f" then Some (ascii_of_N 12, rest')
            else
              match rest' with
              | String _ (String _ (String h (String l rest''))) =>
                  Some (ascii_of_N (16 * MerkleSpec.nibble h + MerkleSpec.nibble l), rest'')
              | _ => None
              end
        end
      else Some (c, rest)
  end.

(** Texts without a comma. *)
Fixpoint no_comma (s : string) : bool :=
  match s with
  | EmptyString => true
  | String c rest => negb (Ascii.eqb c ",") && no_comma rest
  end.

(** * Properties *)

(** The digest is only ever computed by the virtual machine, on concrete
    inputs; no proof step unfolds it. *)
Opaque hashlib.digest pyfloat.round6 pyfloat.repr.

(** ** The error monad *)

Lemma bind_Ok {A B : Type} (r : result A) (k : A -> result B) (b : B) :
  bind r k = Ok b -> exists a, r = Ok a /\ k a = Ok b.
Proof.
  destruct r as [a|e]; simpl; intros H; [exists a; auto | discriminate].
Qed.

(** ** Hexadecimal text *)

Lemma string_pair_ind (P : string -> Prop) :
  P EmptyString ->
  (forall c, P (String c EmptyString)) ->
  (forall c c' s, P s -> P (String c (String c' s))) ->
  forall s, P s.
Proof.
  intros H0 H1 H2 s.
  assert (H : P s /\ forall c, P (String c s)).
  { induction s as [|c' s [IHa IHb]]; split; auto. }
  apply H.
Qed.

Lemma list_pair_ind {A : Type} (P : list A -> Prop) :
  P [] ->
  (forall x, P [x]) ->
  (forall x y l, P l -> P (x :: y :: l)) ->
  forall l, P l.
Proof.
  intros H0 H1 H2 l.
  assert (H : P l /\ forall x, P (x :: l)).
  { induction l as [|y l [IHa IHb]]; split; auto. }
  apply H.
Qed.

Lemma hexdigit_not_space (c : ascii) : is_hexdigit c = true -> is_space c = false.
Proof.
  unfold is_hexdigit, digit_value, is_space.
  destruct (N_of_ascii c) as [|p] eqn:E; [reflexivity|].
  repeat match goal with
         | |- context [(?a <=? ?b)%N] => destruct (N.leb_spec a b)
         | |- context [(?a =? ?b)%N] => destruct (N.eqb_spec a b)
         end; simpl; try reflexivity; try discriminate; lia.
Qed.

Lemma fromhex_decode (s : string) :
  hexpairs s = true -> fromhex s = Ok (MerkleSpec.decode s).
Proof.
  induction s as [| c | c c' s IH] using string_pair_ind; intros H.
  - reflexivity.
  - discriminate.
  - cbn [hexpairs] in H.
    apply andb_prop in H as [H Hs]. apply andb_prop in H as [Hc Hc'].
    cbn [fromhex MerkleSpec.decode].
    rewrite (hexdigit_not_space c Hc).
    unfold is_hexdigit in Hc, Hc'. unfold MerkleSpec.nibble.
    destruct (digit_value c); [|discriminate].
    destruct (digit_value c'); [|discriminate].
    rewrite (IH Hs). reflexivity.
Qed.

Lemma hexpairs_hex (bs : bytes) : hexpairs (hex bs) = true.
Proof.
  induction bs as [|b bs IH]; [reflexivity|].
  cbn [hex hexpairs]. rewrite IH.
  destruct b; reflexivity.
Qed.

Lemma decode_hex (bs : bytes) : MerkleSpec.decode (hex bs) = bs.
Proof.
  induction bs as [|b bs IH]; [reflexivity|].
  cbn [hex MerkleSpec.decode]. rewrite IH.
  f_equal. destruct b; reflexivity.
Qed.

Lemma hexpairs_sha256 (x : bytes) : hexpairs (sha256 x) = true.
Proof. apply hexpairs_hex. Qed.

Lemma fromhex_sha256 (x : bytes) : fromhex (sha256 x) = Ok (hashlib.digest x).
Proof.
  rewrite (fromhex_decode _ (hexpairs_sha256 x)). unfold sha256.
  now rewrite decode_hex.
Qed.

(** ** The Merkle root *)

Lemma pair_hashes_length (layer nxt : list string) :
  pair_hashes layer = Ok nxt -> List.length layer = 2 * List.length nxt.
Proof.
  revert nxt.
  induction layer as [| x | x y l IH] using list_pair_ind; intros nxt H.
  - injection H as <-. reflexivity.
  - cbn in H. destruct (fromhex x); discriminate.
  - cbn [pair_hashes] in H.
    apply bind_Ok in H as (a & _ & H). apply bind_Ok in H as (b & _ & H).
    apply bind_Ok in H as (n & Hn & H). injection H as <-.
    cbn [List.length]. rewrite (IH _ Hn). lia.
Qed.

Lemma pair_hashes_reduce (layer : list string) :
  all_hex layer -> Nat.even (List.length layer) = true ->
  pair_hashes layer = Ok (MerkleSpec.reduce layer).
Proof.
  induction layer as [| x | x y l IH] using list_pair_ind; intros Hh He.
  - reflexivity.
  - discriminate.
  - inversion Hh as [|? ? Hx Hh']; subst. inversion Hh' as [|? ? Hy Hl]; subst.
    cbn [pair_hashes MerkleSpec.reduce].
    rewrite (fromhex_decode _ Hx), (fromhex_decode _ Hy). cbn [bind].
    rewrite (IH Hl He). reflexivity.
Qed.

Lemma reduce_all_hex (layer : list string) : all_hex (MerkleSpec.reduce layer).
Proof.
  induction layer as [| x | x y l IH] using list_pair_ind; cbn; try constructor; auto.
  apply hexpairs_sha256.
Qed.

Lemma last_of_rev {A : Type} (l t : list A) (h d : A) :
  rev l = h :: t -> last l d = h.
Proof.
  intros H. rewrite <- (rev_involutive l), H. cbn [rev]. apply last_last.
Qed.

Lemma pad_odd_duplicate_last (layer : list string) :
  pad_odd layer = MerkleSpec.duplicate_last layer.
Proof.
  unfold pad_odd, MerkleSpec.duplicate_last, Nat.odd.
  destruct (Nat.even (List.length layer)) eqn:E; cbn [negb]; [reflexivity|].
  destruct (rev layer) as [|h t] eqn:R.
  - apply (f_equal (@rev string)) in R. rewrite rev_involutive in R. subst.
    discriminate.
  - now rewrite (last_of_rev _ _ _ _ R).
Qed.

Lemma pad_odd_length (layer : list string) :
  List.length (pad_odd layer) = List.length layer + (if Nat.odd (List.length layer) then 1 else 0).
Proof.
  unfold pad_odd. destruct (Nat.odd (List.length layer)).
  - rewrite length_app. reflexivity.
  - lia.
Qed.

Lemma pad_odd_even (layer : list string) : Nat.even (List.length (pad_odd layer)) = true.
Proof.
  rewrite pad_odd_length. unfold Nat.odd.
  destruct (Nat.even (List.length layer)) eqn:E; cbn [negb].
  - now rewrite Nat.add_0_r.
  - rewrite Nat.add_1_r, Nat.even_succ. unfold Nat.odd. now rewrite E.
Qed.

Lemma last_In {A : Type} (l : list A) (d : A) : l <> [] -> In (last l d) l.
Proof.
  induction l as [|x l IH]; intros H; [congruence|].
  destruct l as [|y l]; [now left|].
  right. apply IH. discriminate.
Qed.

Lemma pad_odd_all_hex (layer : list string) : all_hex layer -> all_hex (pad_odd layer).
Proof.
  intros H. unfold pad_odd. destruct (Nat.odd (List.length layer)) eqn:E; [|exact H].
  apply Forall_app. split; [exact H|]. constructor; [|constructor].
  unfold all_hex in H. rewrite Forall_forall in H. apply H, last_In.
  intros ->. discriminate.
Qed.

(** One turn of the loop shortens a layer of two or more. *)
Lemma pair_hashes_shorter (layer nxt : list string) :
  2 <= List.length layer -> pair_hashes (pad_odd layer) = Ok nxt ->
  1 <= List.length nxt < List.length layer.
Proof.
  intros H2 H. apply pair_hashes_length in H. rewrite pad_odd_length in H.
  destruct (Nat.odd (List.length layer)); lia.
Qed.

(** The fuel of [merkle_while] does not matter once it covers the layer. *)
Lemma merkle_while_fuel (f1 : nat) :
  forall (f2 : nat) (layer : list string),
    List.length layer <= f1 -> List.length layer <= f2 ->
    merkle_while f1 layer = merkle_while f2 layer.
Proof.
  induction f1 as [|f1 IH]; intros f2 layer H1 H2.
  - destruct layer; [|cbn in H1; lia]. destruct f2; reflexivity.
  - cbn [merkle_while].
    destruct (1 <? List.length layer) eqn:E.
    + apply Nat.ltb_lt in E. destruct f2 as [|f2]; [lia|].
      cbn [merkle_while]. apply Nat.ltb_lt in E as E'. rewrite E'.
      destruct (pair_hashes (pad_odd layer)) as [nxt|e] eqn:P; [|reflexivity].
      cbn [bind]. pose proof (pair_hashes_shorter layer nxt E P).
      apply IH; lia.
    + destruct f2 as [|f2]; [reflexivity|]. cbn [merkle_while]. now rewrite E.
Qed.

(** The loop equation of [while len(layer) > 1]. *)
Lemma merkle_while_unroll (fuel : nat) (layer : list string) :
  List.length layer <= fuel ->
  merkle_while fuel layer =
    if 1 <? List.length layer then
      nxt <- pair_hashes (pad_odd layer) ;; merkle_while (List.length nxt) nxt
    else getitem layer 0.
Proof.
  intros H. destruct fuel as [|fuel].
  - destruct layer; [reflexivity | cbn in H; lia].
  - cbn [merkle_while]. destruct (1 <? List.length layer) eqn:E; [|reflexivity].
    apply Nat.ltb_lt in E.
    destruct (pair_hashes (pad_odd layer)) as [nxt|e] eqn:P; [|reflexivity].
    cbn [bind]. pose proof (pair_hashes_shorter layer nxt E P).
    apply merkle_while_fuel; lia.
Qed.

Lemma root_functional (layer : list string) (r1 r2 : string) :
  MerkleSpec.root layer r1 -> MerkleSpec.root layer r2 -> r1 = r2.
Proof.
  intros H1. revert r2.
  induction H1 as [r He | h | layer r Hlen _ IH]; intros r2 H2.
  - inversion H2 as [? He2 | | ? ? Hl]; subst; [reflexivity | cbn in Hl; lia].
  - inversion H2 as [| | ? ? Hl]; subst; [reflexivity | cbn in Hl; lia].
  - inversion H2 as [| | ? ? Hl Hr]; subst; try (cbn in Hlen; lia).
    now apply IH.
Qed.

Lemma merkle_while_root (n : nat) :
  forall layer : list string,
    List.length layer <= n -> layer <> [] -> all_hex layer ->
    exists r, merkle_while (List.length layer) layer = Ok r /\ MerkleSpec.root layer r.
Proof.
  induction n as [|n IH]; intros layer Hn Hne Hh.
  - destruct layer; [congruence | cbn in Hn; lia].
  - rewrite merkle_while_unroll by lia.
    destruct (1 <? List.length layer) eqn:E.
    + apply Nat.ltb_lt in E.
      rewrite (pair_hashes_reduce _ (pad_odd_all_hex _ Hh) (pad_odd_even _)).
      cbn [bind].
      pose proof (pair_hashes_shorter layer _ E
                    (pair_hashes_reduce _ (pad_odd_all_hex _ Hh) (pad_odd_even _))) as Hs.
      destruct (IH (MerkleSpec.reduce (pad_odd layer))) as (r & Hr & Hroot).
      * lia.
      * intros Hnil. rewrite Hnil in Hs. cbn in Hs. lia.
      * apply reduce_all_hex.
      * exists r. split; [exact Hr|].
        apply MerkleSpec.root_reduce; [lia|].
        now rewrite <- pad_odd_duplicate_last.
    + apply Nat.ltb_ge in E.
      destruct layer as [|h [|h' l]]; [congruence | | cbn in E; lia].
      exists h. split; [reflexivity | constructor].
Qed.

Lemma merkle_root_spec (hashes : list string) :
  all_hex hashes ->
  exists r, merkle_root hashes = Ok r /\ MerkleSpec.root hashes r.
Proof.
  intros Hh. destruct hashes as [|h l] eqn:E.
  - exists (sha256 []). split; [reflexivity | now constructor].
  - rewrite <- E in *. assert (Hne : hashes <> []) by (subst; discriminate).
    destruct (merkle_while_root (List.length hashes) hashes (le_n _) Hne Hh) as (r & Hr & Hroot).
    exists r. split; [|exact Hroot]. subst hashes. exact Hr.
Qed.

Lemma tx_hashes_all_hex (txs : list Transaction.t) : all_hex (map Transaction.hash txs).
Proof.
  induction txs; constructor; auto. apply hexpairs_sha256.
Qed.

(** On the digests of transactions [merkle_root] never raises. *)
Lemma merkle_root_txs (txs : list Transaction.t) :
  merkle_root (map Transaction.hash txs) = Ok (root_of txs).
Proof.
  unfold root_of.
  destruct (merkle_root_spec _ (tx_hashes_all_hex txs)) as (r & Hr & _).
  now rewrite Hr.
Qed.

(** ** Validation *)

Lemma check_block_ok (prev b : Block.t) : check_block prev b = true <-> block_ok prev b.
Proof.
  unfold check_block, block_ok, linked, proof_of_work, merkle_consistent.
  rewrite merkle_root_txs, !andb_true_iff, !String.eqb_eq.
  split.
  - intros [[H1 H2] H3]. now rewrite H3.
  - intros (H1 & H2 & H3). injection H3 as H3. auto.
Qed.

(** One turn of the validation loop: it goes on after a block that passes
    the three checks and returns false at once otherwise. *)
Lemma valid_loop_cons (chain : list Block.t) (i : nat) (idxs : list nat) :
  1 <= i < List.length chain ->
  Blockchain.valid_loop chain (i :: idxs) =
    if check_at chain i then Blockchain.valid_loop chain idxs else Ok false.
Proof.
  intros Hi. cbn [Blockchain.valid_loop]. unfold check_at, getitem.
  destruct (nth_error chain i) as [b|] eqn:Eb;
    [|apply nth_error_None in Eb; lia].
  destruct (nth_error chain (i - 1)) as [prev|] eqn:Ep;
    [|apply nth_error_None in Ep; lia].
  cbn [bind]. rewrite merkle_root_txs. cbn [bind]. unfold check_block.
  destruct (String.eqb (Block.prev_hash b) (Block.hash prev)); [|reflexivity].
  destruct (startswith (Block.hash b) DIFFICULTY_PREFIX); [|reflexivity].
  destruct (String.eqb (root_of (Block.transactions b)) (Block.merkle_root b));
    reflexivity.
Qed.

Lemma valid_loop_forallb (chain : list Block.t) (idxs : list nat) :
  (forall i, In i idxs -> 1 <= i < List.length chain) ->
  Blockchain.valid_loop chain idxs = Ok (forallb (check_at chain) idxs).
Proof.
  induction idxs as [|i idxs IH]; intros Hin; [reflexivity|].
  rewrite valid_loop_cons by (apply Hin; now left).
  cbn [forallb]. destruct (check_at chain i); [|reflexivity].
  apply IH. intros j Hj. apply Hin. now right.
Qed.

Lemma valid_chain_forallb (st : Blockchain.t) :
  Blockchain.valid_chain st =
    Ok (forallb (check_at (Blockchain.chain st))
                (seq 1 (List.length (Blockchain.chain st) - 1))).
Proof.
  unfold Blockchain.valid_chain. apply valid_loop_forallb.
  intros i Hi. apply in_seq in Hi. lia.
Qed.

Lemma check_at_cons (g : Block.t) (l : list Block.t) (i : nat) :
  1 <= i -> check_at (g :: l) (S i) = check_at l i.
Proof.
  intros Hi. unfold check_at. destruct i as [|i]; [lia|].
  cbn [nth_error Nat.sub]. now rewrite Nat.sub_0_r.
Qed.

Lemma forallb_check_at_shift (g : Block.t) (l : list Block.t) (n : nat) :
  forall s, 1 <= s ->
    forallb (check_at (g :: l)) (seq (S s) n) = forallb (check_at l) (seq s n).
Proof.
  induction n as [|n IH]; intros s Hs; [reflexivity|].
  cbn [seq forallb]. rewrite check_at_cons by exact Hs. f_equal. apply IH. lia.
Qed.

Lemma forallb_check_at_chain_ok (rest : list Block.t) :
  forall g, forallb (check_at (g :: rest)) (seq 1 (List.length rest)) = chain_ok g rest.
Proof.
  induction rest as [|b rest IH]; intros g; [reflexivity|].
  cbn [List.length seq forallb chain_ok]. f_equal.
  rewrite forallb_check_at_shift by lia. apply IH.
Qed.

(** Validation walks the chain from the second block on. *)
Lemma valid_chain_chain_ok (st : Blockchain.t) (g : Block.t) (rest : list Block.t) :
  Blockchain.chain st = g :: rest ->
  Blockchain.valid_chain st = Ok (chain_ok g rest).
Proof.
  intros E. rewrite valid_chain_forallb, E. cbn [List.length Nat.sub].
  rewrite Nat.sub_0_r. now rewrite forallb_check_at_chain_ok.
Qed.

Lemma last_cons {A : Type} (rest : list A) :
  forall x d : A, last (x :: rest) d = last rest x.
Proof.
  induction rest as [|y rest IH]; intros x d; [reflexivity|].
  change (last (x :: y :: rest) d) with (last (y :: rest) d).
  now rewrite !IH.
Qed.

Lemma chain_ok_app (rest : list Block.t) (b : Block.t) :
  forall g, chain_ok g (rest ++ [b]) = chain_ok g rest && check_block (last rest g) b.
Proof.
  induction rest as [|x rest IH]; intros g.
  - cbn. now rewrite andb_true_r.
  - cbn [app chain_ok]. rewrite IH, andb_assoc.
    now rewrite last_cons.
Qed.

(** ** The operations of the ledger *)

Lemma merkle_root_single (h : string) : merkle_root [h] = Ok h.
Proof. reflexivity. Qed.

Lemma init_eq (now : float) :
  Blockchain.init now = Ok (Blockchain.mk [genesis_block now] []).
Proof.
  unfold Blockchain.init, Blockchain.create_genesis.
  rewrite merkle_root_single. reflexivity.
Qed.

Lemma set_nonce_twice (n m : Z) (b : Block.t) :
  Block.set_nonce m (Block.set_nonce n b) = Block.set_nonce m b.
Proof. reflexivity. Qed.

(** The search returns the first nonce, counted from [n0], that meets the
    difficulty, among [tries] candidates. *)
Lemma search_Some (tries : nat) :
  forall (n0 : Z) (block found : Block.t),
    Blockchain.search tries n0 block = Some found ->
    exists k : nat,
      k < tries /\
      found = Block.set_nonce (n0 + Z.of_nat k) block /\
      proof_of_work found /\
      forall j : nat, j < k -> ~ proof_of_work (Block.set_nonce (n0 + Z.of_nat j) block).
Proof.
  induction tries as [|tries IH]; intros n0 block found H; [discriminate|].
  cbn [Blockchain.search] in H.
  destruct (startswith (Block.hash (Block.set_nonce n0 block)) DIFFICULTY_PREFIX) eqn:E.
  - injection H as <-. exists 0. rewrite Z.add_0_r.
    repeat split; [lia | exact E | intros j Hj; lia].
  - apply IH in H as (k & Hk & -> & Hpow & Hmin).
    exists (S k). rewrite set_nonce_twice in *.
    replace (n0 + Z.of_nat (S k))%Z with (n0 + 1 + Z.of_nat k)%Z by lia.
    repeat split; [lia | exact Hpow |].
    intros [|j] Hj.
    + rewrite Z.add_0_r. unfold proof_of_work. now rewrite E.
    + replace (n0 + Z.of_nat (S j))%Z with (n0 + 1 + Z.of_nat j)%Z by lia.
      specialize (Hmin j). rewrite set_nonce_twice in Hmin. apply Hmin. lia.
Qed.

Lemma search_None (tries : nat) :
  forall (n0 : Z) (block : Block.t),
    Blockchain.search tries n0 block = None ->
    forall j : nat, j < tries -> ~ proof_of_work (Block.set_nonce (n0 + Z.of_nat j) block).
Proof.
  induction tries as [|tries IH]; intros n0 block H j Hj; [lia|].
  cbn [Blockchain.search] in H.
  destruct (startswith (Block.hash (Block.set_nonce n0 block)) DIFFICULTY_PREFIX) eqn:E;
    [discriminate|].
  destruct j as [|j].
  - rewrite Z.add_0_r. unfold proof_of_work. now rewrite E.
  - replace (n0 + Z.of_nat (S j))%Z with (n0 + 1 + Z.of_nat j)%Z by lia.
    specialize (IH _ _ H j). rewrite set_nonce_twice in IH. apply IH. lia.
Qed.

Lemma last_block_nonempty (st : Blockchain.t) :
  Blockchain.chain st <> [] -> exists last, Blockchain.last_block st = Ok last.
Proof.
  unfold Blockchain.last_block. destruct (Blockchain.chain st) as [|g rest]; [congruence|].
  intros _. now exists (last rest g).
Qed.

Lemma set_nonce_candidate (st : Blockchain.t) (miner : string) (now : float)
      (last : Block.t) (root : string) (k n : Z) :
  Block.set_nonce n (candidate st miner now last root k) = candidate st miner now last root n.
Proof. reflexivity. Qed.

(** [mine] in terms of the search over the candidate block. *)
Lemma mine_unfold (st : Blockchain.t) (miner : string) (now : float) (max_tries : Z) :
  Blockchain.mine st miner now max_tries =
    last <- Blockchain.last_block st ;;
    match Blockchain.search (Z.to_nat max_tries) 0
            (candidate st miner now last
               (root_of (reward miner :: Blockchain.mem_pool st)) 0)
    with
    | Some block => Ok (Some block, Blockchain.mk (Blockchain.chain st ++ [block]) [])
    | None => Ok (None, st)
    end.
Proof.
  unfold Blockchain.mine. cbn [app].
  rewrite merkle_root_txs. reflexivity.
Qed.

(** A successful call: the block is the candidate with the least nonce that
    meets the difficulty, and it is appended. *)
Lemma mine_Some (st st' : Blockchain.t) (miner : string) (now : float) (max_tries : Z)
      (b : Block.t) :
  Blockchain.mine st miner now max_tries = Ok (Some b, st') ->
  exists last n,
    Blockchain.last_block st = Ok last /\
    (0 <= n < max_tries)%Z /\
    b = candidate st miner now last
          (root_of (reward miner :: Blockchain.mem_pool st)) n /\
    proof_of_work b /\
    (forall m, (0 <= m < n)%Z ->
       ~ proof_of_work
           (candidate st miner now last
              (root_of (reward miner :: Blockchain.mem_pool st)) m)) /\
    st' = Blockchain.mk (Blockchain.chain st ++ [b]) [].
Proof.
  intros H. rewrite mine_unfold in H. apply bind_Ok in H as (last & Hl & H).
  destruct (Blockchain.search _ _ _) as [found|] eqn:Es; [|discriminate].
  injection H as -> <-.
  apply search_Some in Es as (k & Hk & -> & Hpow & Hmin).
  rewrite Z.add_0_l, set_nonce_candidate in Hpow |- *.
  exists last, (Z.of_nat k).
  split; [exact Hl|]. split; [lia|]. split; [reflexivity|].
  split; [exact Hpow|]. split; [|reflexivity].
  intros m Hm. specialize (Hmin (Z.to_nat m)).
  rewrite Z2Nat.id, Z.add_0_l, set_nonce_candidate in Hmin by lia.
  apply Hmin. lia.
Qed.

Lemma mine_None (st st' : Blockchain.t) (miner : string) (now : float) (max_tries : Z) :
  Blockchain.mine st miner now max_tries = Ok (None, st') ->
  exists last,
    Blockchain.last_block st = Ok last /\
    (forall m, (0 <= m < max_tries)%Z ->
       ~ proof_of_work
           (candidate st miner now last
              (root_of (reward miner :: Blockchain.mem_pool st)) m)) /\
    st' = st.
Proof.
  intros H. rewrite mine_unfold in H. apply bind_Ok in H as (last & Hl & H).
  destruct (Blockchain.search _ _ _) as [found|] eqn:Es; [discriminate|].
  injection H as <-.
  exists last. repeat split; [exact Hl|].
  intros m Hm. pose proof (search_None _ _ _ Es (Z.to_nat m)) as Hn.
  rewrite Z2Nat.id, Z.add_0_l, set_nonce_candidate in Hn by lia. apply Hn. lia.
Qed.

(** [mine] raises nothing on a ledger that has its genesis block. *)
Lemma mine_total (st : Blockchain.t) (miner : string) (now : float) (max_tries : Z) :
  Blockchain.chain st <> [] ->
  exists ret st', Blockchain.mine st miner now max_tries = Ok (ret, st').
Proof.
  intros Hne. destruct (last_block_nonempty st Hne) as (last & Hl).
  rewrite mine_unfold, Hl. cbn [bind].
  destruct (Blockchain.search _ _ _); eauto.
Qed.

(** ** The invariant of reachable ledgers *)

Lemma genesis_consistent (now : float) : merkle_consistent (genesis_block now).
Proof. unfold merkle_consistent. cbn [genesis_block Block.transactions map]. apply merkle_root_single. Qed.

Lemma reachable_inv (st : Blockchain.t) : reachable st -> ledger_inv st.
Proof.
  induction 1 as [now st Hi | st s r a _ IH | st st' miner now mx ret _ IH Hm].
  - rewrite init_eq in Hi. injection Hi as <-.
    exists now, []. repeat split. constructor; [apply genesis_consistent | constructor].
  - exact IH.
  - destruct IH as (t0 & rest & Ec & Hok & Hall).
    destruct ret as [b|].
    + apply mine_Some in Hm as (last & n & Hl & _ & Hb & Hpow & _ & ->).
      unfold Blockchain.last_block in Hl. rewrite Ec in Hl. injection Hl as <-.
      assert (Hcons : merkle_consistent b).
      { subst b. unfold merkle_consistent. cbn [candidate Block.transactions Block.merkle_root].
        apply merkle_root_txs. }
      exists t0, (rest ++ [b]). cbn [Blockchain.chain]. rewrite Ec.
      repeat split.
      * rewrite chain_ok_app, Hok. cbn [andb]. apply check_block_ok.
        repeat split; [|exact Hpow|exact Hcons].
        subst b. reflexivity.
      * rewrite <- Ec. apply Forall_app. split; [exact Hall | constructor; [exact Hcons | constructor]].
    + apply mine_None in Hm as (_ & _ & _ & ->). now exists t0, rest.
Qed.

(** ** Test vectors of the library models *)

Example sha256_empty :
  sha256 [] = "e3b0c44298fc1c149afbf4c8996fb92427ae41e4649b934ca495991b7852b855"%string.
Proof. vm_compute. reflexivity. Qed.

Example sha256_abc :
  sha256 (encode "abc")
    = "ba7816bf8f01cfea414140de5dae2223b00361a396177a9cb410ff61f20015ad"%string.
Proof. vm_compute. reflexivity. Qed.

Example sha256_two_blocks :
  sha256 (encode "abcdbcdecdefdefgefghfghighijhijkijkljklmklmnlmnomnopnopq")
    = "248d6a61d20638b8e5c026930c3e6039a33ce45964ff2167f6ecedd419db06c1"%string.
Proof. vm_compute. reflexivity. Qed.

Example repr_values :
  map pyfloat.repr [0.1; 1.2; 0.7; 6.25; 50.0; 1701557244.25; 1e16; 1e-5; -2.5; 1e22]%float
    = [ "0.1"; "1.2"; "0.7"; "6.25"; "50.0"; "1701557244.25"; "1e+16"; "1e-05"; "-2.5";
        "1e+22" ]%string.
Proof. vm_compute. reflexivity. Qed.

Example round6_values :
  map (fun x => pyfloat.repr (pyfloat.round6 x))
      [1700000000.1234567; 2.675; 0.0000005; 0.0000015; -0.0000001; 1.0000005]%float
    = [ "1700000000.123457"; "2.675"; "0.0"; "2e-06"; "-0.0"; "1.000001" ]%string.
Proof. vm_compute. reflexivity. Qed.

Example transaction_text :
  json.dumps (Transaction.asdict (Transaction.mk "Alice" "Bob" 1.2))
    = String.concat (String json.quote EmptyString)
        [ "{"; "amount"; ":1.2,"; "recipient"; ":"; "Bob"; ","; "sender"; ":"; "Alice"; "}" ]%string.
Proof. vm_compute. reflexivity. Qed.

Lemma inv_valid (st : Blockchain.t) :
  ledger_inv st -> Blockchain.valid_chain st = Ok true.
Proof.
  intros (now & rest & Ec & Hok & _).
  rewrite (valid_chain_chain_ok st _ _ Ec). now rewrite Hok.
Qed.

(** ** The example ledgers *)

Lemma reachable_ledger0 : reachable ledger0.
Proof. apply (reach_init 1700000000.0). apply init_eq. Qed.

Lemma reachable_ledger1 : reachable ledger1.
Proof. do 2 apply reach_add. exact reachable_ledger0. Qed.

Lemma mine_ledger1 :
  Blockchain.mine ledger1 "miner1" 1701557244.25 10 = Ok (Some block1, ledger2).
Proof. vm_compute. reflexivity. Qed.

Lemma mine_ledger1_exhausted :
  Blockchain.mine ledger1 "miner1" 1701557244.25 3 = Ok (None, ledger1).
Proof. vm_compute. reflexivity. Qed.

Lemma reachable_ledger2 : reachable ledger2.
Proof. exact (reach_mine _ _ _ _ _ _ reachable_ledger1 mine_ledger1). Qed.

(** * The claims *)

(** C2: in every ledger state reachable from construction through
    submitted transactions and calls of [mine], validation returns true. *)
Theorem reachable_valid (st : Blockchain.t) :
  reachable st -> Blockchain.valid_chain st = Ok true.
Proof.
  intros H. apply inv_valid, reachable_inv. exact H.
Qed.

Lemma reachable_valid_witness : Blockchain.valid_chain ledger2 = Ok true.
Proof. exact (reachable_valid ledger2 reachable_ledger2). Defined.

(** C5: a call of [mine] that exhausts its bound returns [None] and leaves
    the ledger as it was: the same chain, the same pool in the same order;
    so does a call with a bound of zero. *)
Theorem mine_failure_leaves_state (st st' : Blockchain.t) (miner : string) (now : float)
        (max_tries : Z) :
  Blockchain.mine st miner now max_tries = Ok (None, st') ->
  st' = st /\
  Blockchain.chain st' = Blockchain.chain st /\
  Blockchain.mem_pool st' = Blockchain.mem_pool st /\
  Blockchain.mine st miner now 0 = Ok (None, st).
Proof.
  intros H. apply mine_None in H as (last & Hl & _ & ->).
  repeat split. rewrite mine_unfold, Hl. reflexivity.
Qed.

Lemma mine_failure_leaves_state_witness :
  Blockchain.mine ledger1 "miner1" 1701557244.25 3 = Ok (None, ledger1) /\
  ledger1 = ledger1 /\
  Blockchain.chain ledger1 = Blockchain.chain ledger1 /\
  Blockchain.mem_pool ledger1 = Blockchain.mem_pool ledger1 /\
  Blockchain.mine ledger1 "miner1" 1701557244.25 0 = Ok (None, ledger1).
Proof.
  split; [exact mine_ledger1_exhausted|].
  exact (mine_failure_leaves_state ledger1 ledger1 "miner1" 1701557244.25 3
           mine_ledger1_exhausted).
Defined.

(** C6: after a successful call of [mine] the pool is empty, the chain is
    one block longer, the returned block is the appended one, its index is
    the former length of the chain and its [prev_hash] is the header digest
    of the former last block. *)
Theorem mine_success_appends (st st' : Blockchain.t) (miner : string) (now : float)
        (max_tries : Z) (b : Block.t) :
  Blockchain.mine st miner now max_tries = Ok (Some b, st') ->
  Blockchain.mem_pool st' = [] /\
  List.length (Blockchain.chain st') = S (List.length (Blockchain.chain st)) /\
  Blockchain.chain st' = Blockchain.chain st ++ [b] /\
  Blockchain.last_block st' = Ok b /\
  Block.index b = Z.of_nat (List.length (Blockchain.chain st)) /\
  exists last, Blockchain.last_block st = Ok last /\ Block.prev_hash b = Block.hash last.
Proof.
  intros H. apply mine_Some in H as (last & n & Hl & _ & Hb & _ & _ & ->).
  cbn [Blockchain.mem_pool Blockchain.chain].
  split; [reflexivity|]. split; [rewrite length_app; cbn; lia|].
  split; [reflexivity|]. split.
  - unfold Blockchain.last_block in *. cbn [Blockchain.chain].
    destruct (Blockchain.chain st) as [|g rest]; [discriminate|].
    cbn [app]. now rewrite last_last.
  - split; [now subst b|]. exists last. split; [exact Hl | now subst b].
Qed.

Lemma mine_success_appends_witness :
  Blockchain.mem_pool ledger2 = [] /\
  List.length (Blockchain.chain ledger2) = S (List.length (Blockchain.chain ledger1)) /\
  Blockchain.chain ledger2 = Blockchain.chain ledger1 ++ [block1] /\
  Blockchain.last_block ledger2 = Ok block1 /\
  Block.index block1 = Z.of_nat (List.length (Blockchain.chain ledger1)) /\
  exists last,
    Blockchain.last_block ledger1 = Ok last /\ Block.prev_hash block1 = Block.hash last.
Proof.
  exact (mine_success_appends ledger1 ledger2 "miner1" 1701557244.25 10 block1 mine_ledger1).
Defined.

(** C7: whatever the pool holds when [mine] is called, the transactions of
    the mined block are the reward transaction (from the network to the
    miner, of the fixed reward 6.25) followed by the pool in its order, and
    the stored Merkle root is the one computed over the digests of exactly
    that sequence. *)
Theorem mine_reward_first (st st' : Blockchain.t) (miner : string) (now : float)
        (max_tries : Z) (b : Block.t) :
  Blockchain.mine st miner now max_tries = Ok (Some b, st') ->
  Block.transactions b = Transaction.mk "network" miner 6.25 :: Blockchain.mem_pool st /\
  merkle_root (map Transaction.hash
                 (Transaction.mk "network" miner 6.25 :: Blockchain.mem_pool st))
    = Ok (Block.merkle_root b).
Proof.
  intros H. apply mine_Some in H as (last & n & _ & _ & -> & _).
  split; [reflexivity|].
  cbn [candidate Block.merkle_root]. apply (merkle_root_txs (reward miner :: _)).
Qed.

Lemma mine_reward_first_witness :
  Block.transactions block1
    = Transaction.mk "network" "miner1" 6.25 :: Blockchain.mem_pool ledger1 /\
  merkle_root (map Transaction.hash
                 (Transaction.mk "network" "miner1" 6.25 :: Blockchain.mem_pool ledger1))
    = Ok (Block.merkle_root block1).
Proof.
  exact (mine_reward_first ledger1 ledger2 "miner1" 1701557244.25 10 block1 mine_ledger1).
Defined.

(** C10: in every reachable ledger every block of the chain, the genesis
    block included, stores the Merkle root of the digests of its own
    transactions in their order; the root of the genesis block is the digest
    of its single transaction. *)
Theorem reachable_merkle_roots (st : Blockchain.t) :
  reachable st ->
  Forall (fun b => merkle_root (map Transaction.hash (Block.transactions b))
                   = Ok (Block.merkle_root b))
         (Blockchain.chain st) /\
  exists g rest,
    Blockchain.chain st = g :: rest /\
    Block.transactions g = [Transaction.mk "network" "satoshi" 50.0] /\
    Block.merkle_root g = Transaction.hash (Transaction.mk "network" "satoshi" 50.0).
Proof.
  intros H. destruct (reachable_inv st H) as (now & rest & Ec & _ & Hall).
  split; [exact Hall|]. exists (genesis_block now), rest. auto.
Qed.

Lemma reachable_merkle_roots_witness :
  Forall (fun b => merkle_root (map Transaction.hash (Block.transactions b))
                   = Ok (Block.merkle_root b))
         (Blockchain.chain ledger2) /\
  exists g rest,
    Blockchain.chain ledger2 = g :: rest /\
    Block.transactions g = [Transaction.mk "network" "satoshi" 50.0] /\
    Block.merkle_root g = Transaction.hash (Transaction.mk "network" "satoshi" 50.0).
Proof. exact (reachable_merkle_roots ledger2 reachable_ledger2). Defined.

(** C3: validation returns true exactly when every block from index 1 on
    is linked to the header digest of its predecessor, meets the difficulty
    and stores the Merkle root of its transactions; the genesis block is not
    checked, a chain of one block is valid, and the loop returns false at the
    first block that fails, whatever comes after it. *)
Theorem valid_chain_characterisation (st : Blockchain.t) :
  (exists v, Blockchain.valid_chain st = Ok v) /\
  (Blockchain.valid_chain st = Ok true <->
   forall i b prev,
     1 <= i ->
     nth_error (Blockchain.chain st) i = Some b ->
     nth_error (Blockchain.chain st) (i - 1) = Some prev ->
     Block.prev_hash b = Block.hash prev /\
     startswith (Block.hash b) DIFFICULTY_PREFIX = true /\
     merkle_root (map Transaction.hash (Block.transactions b)) = Ok (Block.merkle_root b)) /\
  (List.length (Blockchain.chain st) <= 1 -> Blockchain.valid_chain st = Ok true) /\
  (forall i later,
     1 <= i < List.length (Blockchain.chain st) ->
     check_at (Blockchain.chain st) i = false ->
     Blockchain.valid_loop (Blockchain.chain st) (i :: later) = Ok false) /\
  (forall i b prev tail pool,
     1 <= i ->
     nth_error (Blockchain.chain st) i = Some b ->
     nth_error (Blockchain.chain st) (i - 1) = Some prev ->
     ~ block_ok prev b ->
     Blockchain.valid_chain
       (Blockchain.mk (firstn (S i) (Blockchain.chain st) ++ tail) pool) = Ok false).
Proof.
  assert (Hiff : forall c : list Block.t,
             forallb (check_at c) (seq 1 (List.length c - 1)) = true <->
             forall i b prev, 1 <= i -> nth_error c i = Some b ->
                              nth_error c (i - 1) = Some prev -> block_ok prev b).
  { intros c. rewrite forallb_forall. split.
    - intros H i b prev Hi Eb Ep.
      assert (Hlt : i < List.length c) by (apply nth_error_Some; congruence).
      specialize (H i). unfold check_at in H. rewrite Eb, Ep in H.
      apply check_block_ok, H, in_seq. lia.
    - intros H i Hi. apply in_seq in Hi. unfold check_at.
      destruct (nth_error c i) as [b|] eqn:Eb;
        [|apply nth_error_None in Eb; lia].
      destruct (nth_error c (i - 1)) as [prev|] eqn:Ep;
        [|apply nth_error_None in Ep; lia].
      apply check_block_ok, (H i); auto. lia. }
  split; [|split; [|split; [|split]]].
  - rewrite valid_chain_forallb. eauto.
  - rewrite valid_chain_forallb. split.
    + intros H. injection H as H. apply Hiff. exact H.
    + intros H. f_equal. apply Hiff. exact H.
  - intros Hlen. rewrite valid_chain_forallb.
    replace (List.length (Blockchain.chain st) - 1) with 0 by lia. reflexivity.
  - intros i later Hi Hc. rewrite valid_loop_cons by exact Hi. now rewrite Hc.
  - intros i b prev tail pool Hi Eb Ep Hbad.
    assert (Hlt : i < List.length (Blockchain.chain st))
      by (apply nth_error_Some; congruence).
    rewrite valid_chain_forallb. cbn [Blockchain.chain]. f_equal.
    apply not_true_is_false. intros Hall. apply Hbad.
    apply (proj1 (Hiff _) Hall i); [exact Hi | |].
    + rewrite nth_error_app1 by (rewrite length_firstn; lia).
      rewrite nth_error_firstn.
      destruct (Nat.ltb_spec i (S i)); [exact Eb | lia].
    + rewrite nth_error_app1 by (rewrite length_firstn; lia).
      rewrite nth_error_firstn.
      destruct (Nat.ltb_spec (i - 1) (S i)); [exact Ep | lia].
Qed.

(** C4: on a ledger that has its genesis block, [mine] tries the nonces
    0, 1, 2, ... on one candidate block whose index, timestamp, [prev_hash],
    Merkle root and transactions are fixed; it returns the candidate with the
    least nonce below the bound whose header digest meets the difficulty, and
    reports failure when no nonce below the bound does. *)
Theorem mine_least_nonce (st : Blockchain.t) (miner : string) (now : float)
        (max_tries : Z) :
  Blockchain.chain st <> [] ->
  exists last root,
    Blockchain.last_block st = Ok last /\
    merkle_root (map Transaction.hash (reward miner :: Blockchain.mem_pool st)) = Ok root /\
    ((exists n,
        (0 <= n < max_tries)%Z /\
        startswith (Block.hash (candidate st miner now last root n)) DIFFICULTY_PREFIX = true /\
        (forall m, (0 <= m < n)%Z ->
           startswith (Block.hash (candidate st miner now last root m)) DIFFICULTY_PREFIX
             = false) /\
        Blockchain.mine st miner now max_tries =
          Ok (Some (candidate st miner now last root n),
              Blockchain.mk (Blockchain.chain st ++ [candidate st miner now last root n]) []))
     \/
     ((forall n, (0 <= n < max_tries)%Z ->
         startswith (Block.hash (candidate st miner now last root n)) DIFFICULTY_PREFIX
           = false) /\
      Blockchain.mine st miner now max_tries = Ok (None, st))).
Proof.
  intros Hne.
  destruct (mine_total st miner now max_tries Hne) as (ret & st' & Hm).
  destruct ret as [b|].
  - destruct (mine_Some _ _ _ _ _ _ Hm) as (last & n & Hl & Hn & Hb & Hpow & Hmin & Hst).
    exists last, (root_of (reward miner :: Blockchain.mem_pool st)).
    split; [exact Hl|]. split; [apply merkle_root_txs|]. left. exists n.
    split; [exact Hn|]. split; [now rewrite <- Hb|]. split.
    + intros m Hmn. apply not_true_is_false, (Hmin m Hmn).
    + now rewrite Hm, Hst, Hb.
  - destruct (mine_None _ _ _ _ _ Hm) as (last & Hl & Hnone & Hst).
    exists last, (root_of (reward miner :: Blockchain.mem_pool st)).
    split; [exact Hl|]. split; [apply merkle_root_txs|]. right. split.
    + intros n Hn. apply not_true_is_false, (Hnone n Hn).
    + now rewrite Hm, Hst.
Qed.

Lemma mine_least_nonce_witness :
  Blockchain.chain ledger1 <> [] /\
  exists last root,
    Blockchain.last_block ledger1 = Ok last /\
    merkle_root (map Transaction.hash (reward "miner1" :: Blockchain.mem_pool ledger1))
      = Ok root /\
    ((exists n,
        (0 <= n < 10)%Z /\
        startswith (Block.hash (candidate ledger1 "miner1" 1701557244.25 last root n))
                   DIFFICULTY_PREFIX = true /\
        (forall m, (0 <= m < n)%Z ->
           startswith (Block.hash (candidate ledger1 "miner1" 1701557244.25 last root m))
                      DIFFICULTY_PREFIX = false) /\
        Blockchain.mine ledger1 "miner1" 1701557244.25 10 =
          Ok (Some (candidate ledger1 "miner1" 1701557244.25 last root n),
              Blockchain.mk
                (Blockchain.chain ledger1
                   ++ [candidate ledger1 "miner1" 1701557244.25 last root n]) []))
     \/
     ((forall n, (0 <= n < 10)%Z ->
         startswith (Block.hash (candidate ledger1 "miner1" 1701557244.25 last root n))
                    DIFFICULTY_PREFIX = false) /\
      Blockchain.mine ledger1 "miner1" 1701557244.25 10 = Ok (None, ledger1))).
Proof.
  assert (Hne : Blockchain.chain ledger1 <> []) by discriminate.
  split; [exact Hne|].
  exact (mine_least_nonce ledger1 "miner1" 1701557244.25 10 Hne).
Defined.

(** On the example the first three nonces fail and nonce 3 is returned. *)
Example mine_ledger1_nonce :
  option_map Block.nonce (Blockchain.search 10 0 (Block.set_nonce 0 block1)) = Some 3%Z /\
  Blockchain.search 3 0 (Block.set_nonce 0 block1) = None.
Proof. vm_compute. split; reflexivity. Qed.

(** C8: on sequences of hexadecimal digests [merkle_root] returns the root
    of the reference definition, and that root is unique: the digest of the
    empty byte sequence for no digest, the digest itself for a single one,
    and otherwise the root of the layer obtained by duplicating the last
    element of a layer of odd length and hashing each pair of decoded
    neighbours. *)
Theorem merkle_root_reference (hashes : list string) :
  Forall (fun h => hexpairs h = true) hashes ->
  exists r,
    merkle_root hashes = Ok r /\
    MerkleSpec.root hashes r /\
    forall r', MerkleSpec.root hashes r' -> r' = r.
Proof.
  intros Hh. destruct (merkle_root_spec hashes Hh) as (r & Hr & Hroot).
  exists r. repeat split; [exact Hr | exact Hroot |].
  intros r' Hr'. exact (root_functional _ _ _ Hr' Hroot).
Qed.

Lemma merkle_root_reference_witness :
  Forall (fun h => hexpairs h = true) (map Transaction.hash (Block.transactions block1)) /\
  exists r,
    merkle_root (map Transaction.hash (Block.transactions block1)) = Ok r /\
    MerkleSpec.root (map Transaction.hash (Block.transactions block1)) r /\
    forall r', MerkleSpec.root (map Transaction.hash (Block.transactions block1)) r' -> r' = r.
Proof.
  assert (Hh : Forall (fun h => hexpairs h = true)
                      (map Transaction.hash (Block.transactions block1))).
  { vm_compute. repeat constructor. }
  split; [exact Hh|].
  exact (merkle_root_reference _ Hh).
Defined.

(** The two base cases hold for any input, and three digests are padded to
    four before they are paired. *)
Lemma merkle_root_empty : merkle_root [] = Ok (sha256 []).
Proof. reflexivity. Qed.

Example merkle_root_block1 :
  merkle_root (map Transaction.hash (Block.transactions block1))
    = Ok "ca767e56c380e3c31c74f3e44604bfc82e7a8e268f774cf387c0a45467aef2c8"%string.
Proof. vm_compute. reflexivity. Qed.

(** ** The header digest *)

Lemma sorted_header (b : Block.t) :
  json.sort_keys (Block.header_dict b) =
    [ ("index"%string, json.JInt (Block.index b));
      ("merkle_root"%string, json.JStr (Block.merkle_root b));
      ("nonce"%string, json.JInt (Block.nonce b));
      ("prev_hash"%string, json.JStr (Block.prev_hash b));
      ("timestamp"%string, json.JFloat (pyfloat.round6 (Block.timestamp b))) ].
Proof. reflexivity. Qed.

Lemma string_app_assoc (a b c : string) :
  append (append a b) c = append a (append b c).
Proof. induction a as [|x a IH]; cbn [append]; [reflexivity | now rewrite IH]. Qed.

Lemma dumps_header (b : Block.t) : json.dumps (Block.header_dict b) = header_text b.
Proof.
  unfold json.dumps. rewrite sorted_header.
  unfold header_text, json.dumps_item.
  cbn [map json.join fst snd json.dumps_value String.concat].
  repeat (progress (rewrite ?string_app_assoc; cbn [append])). reflexivity.
Qed.

(** C9: the header digest of a block is the digest of the canonical text of
    exactly five fields, sorted by name and joined by fixed separators:
    index, Merkle root, nonce, [prev_hash], and the timestamp rounded to six
    decimal places.  The transactions are no part of it: blocks that agree
    on these five fields have the same header digest, whatever their
    transactions. *)
Theorem header_digest_fields (b : Block.t) :
  Block.hash b = sha256 (encode (header_text b)) /\
  (forall txs, Block.hash (Block.set_transactions txs b) = Block.hash b) /\
  (forall b',
     Block.index b' = Block.index b ->
     pyfloat.round6 (Block.timestamp b') = pyfloat.round6 (Block.timestamp b) ->
     Block.prev_hash b' = Block.prev_hash b ->
     Block.merkle_root b' = Block.merkle_root b ->
     Block.nonce b' = Block.nonce b ->
     Block.hash b' = Block.hash b).
Proof.
  assert (H : forall x, Block.hash x = sha256 (encode (header_text x))).
  { intros x. unfold Block.hash, jhash. now rewrite dumps_header. }
  split; [apply H|]. split.
  - intros txs. reflexivity.
  - intros b' Hi Ht Hp Hm Hn. rewrite !H. unfold header_text.
    now rewrite Hi, Ht, Hp, Hm, Hn.
Qed.

(** The canonical text of the mined block of the example. *)
Example header_text_block1 :
  header_text block1 =
    String.concat (String json.quote EmptyString)
      [ "{"; "index"; ":1,"; "merkle_root"; ":";
        "ca767e56c380e3c31c74f3e44604bfc82e7a8e268f774cf387c0a45467aef2c8"; ",";
        "nonce"; ":3,"; "prev_hash"; ":";
        "7984373956606655ba6f6bb23c5308f9e91f86a6f904ea6bbb4b732031478c45"; ",";
        "timestamp"; ":1701557244.25}" ]%string.
Proof. vm_compute. reflexivity. Qed.

(** ** Tampering with a stored block *)

Lemma update_split {A : Type} (f : A -> A) (l : list A) :
  forall (i : nat) (x : A),
    nth_error l i = Some x ->
    exists pre post,
      l = pre ++ x :: post /\ List.length pre = i /\ update i f l = pre ++ f x :: post.
Proof.
  induction l as [|y l IH]; intros [|i] x H; try discriminate.
  - injection H as ->. now exists [], l.
  - cbn [nth_error] in H. destruct (IH i x H) as (pre & post & -> & Hlen & Hup).
    exists (y :: pre), post. cbn [update app List.length]. rewrite Hup. auto.
Qed.

Lemma chain_ok_split (pre : list Block.t) :
  forall (g b : Block.t) (post : list Block.t),
    chain_ok g (pre ++ b :: post) =
      chain_ok g pre && check_block (last pre g) b && chain_ok b post.
Proof.
  induction pre as [|x pre IH]; intros g b post.
  - reflexivity.
  - cbn [app chain_ok]. rewrite IH, last_cons, !andb_assoc. reflexivity.
Qed.

Lemma nth_error_last_pre (pre post : list Block.t) (g b : Block.t) :
  nth_error (g :: pre ++ b :: post) (List.length pre) = Some (last pre g).
Proof.
  revert g. induction pre as [|x pre IH]; intros g; [reflexivity|].
  cbn [List.length app nth_error]. rewrite last_cons. apply IH.
Qed.

(** What the blocks after a tampered one see of it is its header digest. *)
Lemma chain_ok_after (b b' : Block.t) (post : list Block.t) :
  chain_ok b post = true ->
  chain_ok b' post =
    match post with
    | [] => true
    | _ :: _ => String.eqb (Block.hash b') (Block.hash b)
    end.
Proof.
  destruct post as [|c post]; [reflexivity|].
  cbn [chain_ok]. unfold check_block. rewrite !andb_true_iff, String.eqb_eq.
  intros [[[Hl Hp] Hm] Hr]. rewrite Hl, Hp, Hm, Hr, !andb_true_r.
  apply String.eqb_sym.
Qed.

(** The verdict on a chain that was valid before the block at position [i]
    was overwritten. *)
Lemma tamper_valid (st : Blockchain.t) (i : nat) (b : Block.t) (f : Block.t -> Block.t) :
  Blockchain.valid_chain st = Ok true ->
  1 <= i ->
  nth_error (Blockchain.chain st) i = Some b ->
  exists prev,
    nth_error (Blockchain.chain st) (i - 1) = Some prev /\
    check_block prev b = true /\
    Blockchain.valid_chain (tamper i f st) =
      Ok (check_block prev (f b)
          && (negb (S i <? List.length (Blockchain.chain st))
              || String.eqb (Block.hash (f b)) (Block.hash b))).
Proof.
  intros Hv Hi Eb.
  destruct (Blockchain.chain st) as [|g rest] eqn:Ec; [destruct i; discriminate|].
  rewrite (valid_chain_chain_ok st g rest Ec) in Hv. injection Hv as Hv.
  destruct i as [|i]; [lia|]. cbn [nth_error] in Eb.
  destruct (update_split f rest i b Eb) as (pre & post & -> & Hlen & Hup).
  rewrite chain_ok_split, !andb_true_iff in Hv. destruct Hv as [[Hpre Hb] Hpost].
  exists (last pre g). cbn [Nat.sub]. rewrite Nat.sub_0_r.
  split; [rewrite <- Hlen; apply nth_error_last_pre|]. split; [exact Hb|].
  rewrite (valid_chain_chain_ok (tamper (S i) f st) g (pre ++ f b :: post)).
  2: { unfold tamper. cbn [Blockchain.chain]. rewrite Ec. cbn [update]. now rewrite Hup. }
  rewrite chain_ok_split, Hpre, (chain_ok_after b (f b) post Hpost). cbn [andb].
  f_equal. f_equal. cbn [List.length]. rewrite length_app. cbn [List.length].
  destruct post as [|c post]; cbn [List.length].
  - replace (S (S i) <? _) with false by (symmetry; apply Nat.ltb_ge; lia).
    reflexivity.
  - replace (S (S i) <? _) with true by (symmetry; apply Nat.ltb_lt; lia).
    reflexivity.
Qed.

(** A block whose link, transactions and stored root are untouched passes
    the checks against its predecessor when its header digest meets the
    difficulty. *)
Lemma check_block_same_body (prev b b' : Block.t) :
  Block.prev_hash b' = Block.prev_hash b ->
  Block.transactions b' = Block.transactions b ->
  Block.merkle_root b' = Block.merkle_root b ->
  check_block prev b = true ->
  check_block prev b' = startswith (Block.hash b') DIFFICULTY_PREFIX.
Proof.
  unfold check_block. intros -> -> ->.
  rewrite !andb_true_iff. intros [[-> _] ->]. now rewrite andb_true_r.
Qed.

(** The detection of a write to a stored field is the subject of the last
    part, [Tamper detection], which uses the lemmas on digests and texts
    proved below. *)

(** * Further properties of the ledger *)

(** ** How [mine] fails and composes *)

(** X1: [mine] raises exactly on a ledger whose chain is empty, and what it
    raises is the [IndexError] of [last_block]; the Merkle root of the
    candidate never raises. *)
Theorem mine_raises_iff_empty (st : Blockchain.t) (miner : string) (now : float)
        (max_tries : Z) (e : exn) :
  Blockchain.mine st miner now max_tries = Raise e <->
  Blockchain.chain st = [] /\ e = IndexError.
Proof.
  rewrite mine_unfold. unfold Blockchain.last_block.
  destruct (Blockchain.chain st) as [|g rest]; cbn [bind].
  - split; [intros H; injection H as <-; auto | intros [_ ->]; reflexivity].
  - destruct (Blockchain.search _ _ _); split; intros H;
      try discriminate; destruct H; discriminate.
Qed.

Lemma check_block_candidate (st : Blockchain.t) (miner : string) (now : float)
      (last : Block.t) (n : Z) :
  proof_of_work (candidate st miner now last (root_of (reward miner :: Blockchain.mem_pool st)) n) ->
  check_block last
    (candidate st miner now last (root_of (reward miner :: Blockchain.mem_pool st)) n) = true.
Proof.
  intros Hpow. apply check_block_ok. repeat split; [exact Hpow|].
  unfold merkle_consistent. cbn [candidate Block.transactions Block.merkle_root].
  apply merkle_root_txs.
Qed.

(** X2: a call of [mine] that returns neither repairs nor breaks a chain:
    the verdict of [valid_chain] is the same after the call as before it,
    on any ledger, valid or not. *)
Theorem mine_keeps_verdict (st st' : Blockchain.t) (miner : string) (now : float)
        (max_tries : Z) (ret : option Block.t) :
  Blockchain.mine st miner now max_tries = Ok (ret, st') ->
  Blockchain.valid_chain st' = Blockchain.valid_chain st.
Proof.
  intros H. destruct ret as [b|].
  - apply mine_Some in H as (last & n & Hl & _ & -> & Hpow & _ & ->).
    unfold Blockchain.last_block in Hl.
    destruct (Blockchain.chain st) as [|g rest] eqn:Ec; [discriminate|].
    injection Hl as <-.
    rewrite (valid_chain_chain_ok st g rest Ec).
    rewrite (valid_chain_chain_ok _ g (rest ++ [candidate st miner now (last rest g)
               (root_of (reward miner :: Blockchain.mem_pool st)) n]))
      by reflexivity.
    rewrite chain_ok_app, (check_block_candidate _ _ _ _ _ Hpow).
    now rewrite andb_true_r.
  - apply mine_None in H as (_ & _ & _ & ->). reflexivity.
Qed.

Lemma mine_keeps_verdict_witness :
  Blockchain.valid_chain ledger2 = Blockchain.valid_chain ledger1.
Proof.
  exact (mine_keeps_verdict ledger1 ledger2 "miner1" 1701557244.25 10 (Some block1)
           mine_ledger1).
Defined.

Lemma search_more (tries : nat) :
  forall (tries' : nat) (n : Z) (block found : Block.t),
    Blockchain.search tries n block = Some found ->
    tries <= tries' ->
    Blockchain.search tries' n block = Some found.
Proof.
  induction tries as [|tries IH]; intros tries' n block found H Hle; [discriminate|].
  destruct tries' as [|tries']; [lia|].
  cbn [Blockchain.search] in *.
  destruct (startswith (Block.hash (Block.set_nonce n block)) DIFFICULTY_PREFIX);
    [exact H|].
  apply IH; [exact H | lia].
Qed.

Lemma search_less (tries : nat) :
  forall (tries' : nat) (n : Z) (block : Block.t),
    Blockchain.search tries n block = None ->
    tries' <= tries ->
    Blockchain.search tries' n block = None.
Proof.
  induction tries as [|tries IH]; intros tries' n block H Hle.
  - now replace tries' with 0 by lia.
  - destruct tries' as [|tries']; [reflexivity|].
    cbn [Blockchain.search] in *.
    destruct (startswith (Block.hash (Block.set_nonce n block)) DIFFICULTY_PREFIX);
      [discriminate|].
    apply IH; [exact H | lia].
Qed.

(** X3: the bound of [mine] only cuts the search short.  With the same
    miner and clock, a call that succeeds returns the same block and the same
    ledger under any larger bound, and a call that fails also fails, leaving
    the same ledger, under any smaller bound. *)
Theorem mine_bound_monotone (st st' : Blockchain.t) (miner : string) (now : float)
        (max_tries max_tries' : Z) (ret : option Block.t) :
  Blockchain.mine st miner now max_tries = Ok (ret, st') ->
  (ret <> None -> (max_tries <= max_tries')%Z ->
   Blockchain.mine st miner now max_tries' = Ok (ret, st')) /\
  (ret = None -> (max_tries' <= max_tries)%Z ->
   Blockchain.mine st miner now max_tries' = Ok (None, st)).
Proof.
  intros H. rewrite mine_unfold in H. apply bind_Ok in H as (last & Hl & H).
  rewrite !mine_unfold, Hl. cbn [bind].
  destruct (Blockchain.search (Z.to_nat max_tries) _ _) as [found|] eqn:Es.
  - injection H as <- <-. split; [|discriminate].
    intros _ Hle. now rewrite (search_more _ (Z.to_nat max_tries') _ _ _ Es) by lia.
  - injection H as <- <-. split; [congruence|].
    intros _ Hle. now rewrite (search_less _ (Z.to_nat max_tries') _ _ Es) by lia.
Qed.

Lemma mine_bound_monotone_witness :
  Blockchain.mine ledger1 "miner1" 1701557244.25 2000000 = Ok (Some block1, ledger2).
Proof.
  apply (mine_bound_monotone ledger1 ledger2 "miner1" 1701557244.25 10 2000000
           (Some block1) mine_ledger1).
  - discriminate.
  - lia.
Defined.

(** ** What the operations keep *)

Lemma submit_all_state (l : list (string * string * float)) :
  forall st,
    Blockchain.chain (submit_all st l) = Blockchain.chain st /\
    Blockchain.mem_pool (submit_all st l) = Blockchain.mem_pool st ++ map as_transaction l.
Proof.
  induction l as [|x l IH]; intros st.
  - cbn. now rewrite app_nil_r.
  - cbn [submit_all fold_left map]. destruct (IH (Blockchain.add_transaction st
      (fst (fst x)) (snd (fst x)) (snd x))) as [Hc Hp].
    unfold submit_all in *. rewrite Hc, Hp. cbn [Blockchain.add_transaction Blockchain.chain
      Blockchain.mem_pool]. now rewrite <- app_assoc.
Qed.

(** X4: transactions submitted one after the other all go into the block
    mined next, after the reward and after those that were waiting already,
    in the order of submission; the pool is empty afterwards. *)
Theorem submissions_mined_in_order (st st' : Blockchain.t)
        (l : list (string * string * float)) (miner : string) (now : float)
        (max_tries : Z) (b : Block.t) :
  Blockchain.mine (submit_all st l) miner now max_tries = Ok (Some b, st') ->
  Block.transactions b
    = Transaction.mk "network" miner 6.25 :: Blockchain.mem_pool st ++ map as_transaction l /\
  Blockchain.chain st' = Blockchain.chain st ++ [b] /\
  Blockchain.mem_pool st' = [].
Proof.
  intros H. apply mine_Some in H as (last & n & _ & _ & -> & _ & _ & ->).
  destruct (submit_all_state l st) as [Hc Hp].
  cbn [candidate Block.transactions Blockchain.chain Blockchain.mem_pool].
  now rewrite Hc, Hp.
Qed.

Lemma submissions_mined_in_order_witness :
  Block.transactions block1
    = Transaction.mk "network" "miner1" 6.25
        :: Blockchain.mem_pool ledger0
           ++ map as_transaction example_submissions /\
  Blockchain.chain ledger2 = Blockchain.chain ledger0 ++ [block1] /\
  Blockchain.mem_pool ledger2 = [].
Proof.
  exact (submissions_mined_in_order ledger0 ledger2 example_submissions
           "miner1" 1701557244.25 10 block1 mine_ledger1).
Defined.

(** X5: the chain only grows at its end: whatever submissions and calls of
    [mine] follow, the blocks present stay where they are, unchanged, and new
    blocks come after them. *)
Theorem chain_append_only (st st' : Blockchain.t) :
  evolves st st' ->
  exists suffix, Blockchain.chain st' = Blockchain.chain st ++ suffix.
Proof.
  induction 1 as [| st' s r a _ IH | st' st'' miner now mx ret _ IH Hm].
  - exists []. now rewrite app_nil_r.
  - exact IH.
  - destruct IH as (suffix & Hs). destruct ret as [b|].
    + apply mine_Some in Hm as (_ & _ & _ & _ & _ & _ & _ & ->).
      exists (suffix ++ [b]). cbn [Blockchain.chain]. now rewrite Hs, app_assoc.
    + apply mine_None in Hm as (_ & _ & _ & ->). now exists suffix.
Qed.

Lemma evolves_ledger0_ledger2 : evolves ledger0 ledger2.
Proof.
  apply (ev_mine ledger0 ledger1 ledger2 "miner1" 1701557244.25 10 (Some block1));
    [|exact mine_ledger1].
  do 2 apply ev_add. apply ev_refl.
Qed.

Lemma chain_append_only_witness :
  exists suffix, Blockchain.chain ledger2 = Blockchain.chain ledger0 ++ suffix.
Proof. exact (chain_append_only ledger0 ledger2 evolves_ledger0_ledger2). Defined.

(** X6: no transaction is lost: one that waits in the pool is, after any
    submissions and calls of [mine], still in the pool or in a block of the
    chain. *)
Theorem pool_transactions_kept (st st' : Blockchain.t) (tx : Transaction.t) :
  evolves st st' ->
  In tx (Blockchain.mem_pool st) ->
  In tx (Blockchain.mem_pool st') \/
  exists b, In b (Blockchain.chain st') /\ In tx (Block.transactions b).
Proof.
  intros Hev Hin.
  induction Hev as [| st' s r a _ IH | st' st'' miner now mx ret _ IH Hm].
  - now left.
  - destruct IH as [IH | IH]; [left | right; exact IH].
    cbn [Blockchain.add_transaction Blockchain.mem_pool]. apply in_or_app. now left.
  - destruct ret as [b|].
    + apply mine_Some in Hm as (last & n & _ & _ & -> & _ & _ & ->).
      right. cbn [Blockchain.chain]. destruct IH as [IH | (b & Hb & Htx)].
      * eexists. split; [apply in_or_app; right; now left|].
        cbn [candidate Block.transactions]. now right.
      * exists b. split; [apply in_or_app; now left | exact Htx].
    + apply mine_None in Hm as (_ & _ & _ & ->). exact IH.
Qed.

Lemma pool_transactions_kept_witness :
  In (Transaction.mk "Alice" "Bob" 1.2) (Blockchain.mem_pool ledger2) \/
  exists b, In b (Blockchain.chain ledger2)
            /\ In (Transaction.mk "Alice" "Bob" 1.2) (Block.transactions b).
Proof.
  apply (pool_transactions_kept ledger1 ledger2 (Transaction.mk "Alice" "Bob" 1.2)).
  - apply (ev_mine ledger1 ledger1 ledger2 "miner1" 1701557244.25 10 (Some block1));
      [apply ev_refl | exact mine_ledger1].
  - now left.
Defined.

(** ** Invariants of the blocks of a reachable ledger *)

(** A property of the genesis block at position 0 and of every candidate at
    the position it is appended at holds of every block of a reachable
    ledger. *)
Lemma reachable_block_ind (P : nat -> Block.t -> Prop) :
  (forall now, P 0 (genesis_block now)) ->
  (forall st miner now last n,
     reachable st ->
     Blockchain.last_block st = Ok last ->
     (0 <= n)%Z ->
     P (List.length (Blockchain.chain st))
       (candidate st miner now last (root_of (reward miner :: Blockchain.mem_pool st)) n)) ->
  forall st, reachable st ->
  forall i b, nth_error (Blockchain.chain st) i = Some b -> P i b.
Proof.
  intros Hg Hc st Hr.
  induction Hr as [now st Hi | st s r a _ IH | st st' miner now mx ret Hr IH Hm];
    intros i b Eb.
  - rewrite init_eq in Hi. injection Hi as <-. cbn [Blockchain.chain] in Eb.
    destruct i as [|[|i]]; try discriminate. injection Eb as <-. apply Hg.
  - exact (IH i b Eb).
  - destruct ret as [found|].
    + apply mine_Some in Hm as (last & n & Hl & Hn & -> & _ & _ & ->).
      cbn [Blockchain.chain] in Eb.
      destruct (Nat.lt_ge_cases i (List.length (Blockchain.chain st))) as [Hlt | Hge].
      * rewrite nth_error_app1 in Eb by exact Hlt. exact (IH i b Eb).
      * rewrite nth_error_app2 in Eb by exact Hge.
        destruct (i - List.length (Blockchain.chain st)) as [|[|k]] eqn:Ek;
          try discriminate.
        injection Eb as <-. replace i with (List.length (Blockchain.chain st)) by lia.
        apply Hc; [exact Hr | exact Hl | lia].
    + apply mine_None in Hm as (_ & _ & _ & ->). exact (IH i b Eb).
Qed.

Lemma last_block_length (st : Blockchain.t) (last : Block.t) :
  Blockchain.last_block st = Ok last -> 1 <= List.length (Blockchain.chain st).
Proof.
  unfold Blockchain.last_block. destruct (Blockchain.chain st); [discriminate|].
  cbn. lia.
Qed.

(** X7: in a reachable ledger the index stored in a block is its position
    in the chain and its nonce is not negative; the block at position 0 has
    nonce 0 and 64 zeros as [prev_hash]. *)
Theorem reachable_indices (st : Blockchain.t) (i : nat) (b : Block.t) :
  reachable st ->
  nth_error (Blockchain.chain st) i = Some b ->
  Block.index b = Z.of_nat i /\
  (0 <= Block.nonce b)%Z /\
  (i = 0 ->
   Block.nonce b = 0%Z /\
   Block.prev_hash b
     = "0000000000000000000000000000000000000000000000000000000000000000"%string).
Proof.
  intros Hr. revert i b.
  apply (reachable_block_ind
           (fun i b =>
              Block.index b = Z.of_nat i /\
              (0 <= Block.nonce b)%Z /\
              (i = 0 ->
               Block.nonce b = 0%Z /\
               Block.prev_hash b
                 = "0000000000000000000000000000000000000000000000000000000000000000"%string)));
    [| |exact Hr].
  - intros now. cbn. repeat split; lia.
  - intros s miner now last n _ Hl Hn. apply last_block_length in Hl.
    cbn [candidate Block.index Block.nonce]. repeat split; lia.
Qed.

Lemma reachable_indices_witness :
  Block.index block1 = Z.of_nat 1 /\
  (0 <= Block.nonce block1)%Z /\
  (1 = 0 ->
   Block.nonce block1 = 0%Z /\
   Block.prev_hash block1
     = "0000000000000000000000000000000000000000000000000000000000000000"%string).
Proof. exact (reachable_indices ledger2 1 block1 reachable_ledger2 eq_refl). Defined.

(** X8: in a reachable ledger the genesis block holds the single
    transaction of 50.0 from the network to satoshi, and every later block
    starts with a reward of 6.25 from the network. *)
Theorem reachable_rewards (st : Blockchain.t) (i : nat) (b : Block.t) :
  reachable st ->
  nth_error (Blockchain.chain st) i = Some b ->
  match i with
  | O => Block.transactions b = [Transaction.mk "network" "satoshi" 50.0]
  | S _ =>
      exists miner pool,
        Block.transactions b = Transaction.mk "network" miner 6.25 :: pool
  end.
Proof.
  intros Hr. revert i b.
  apply (reachable_block_ind
           (fun i b =>
              match i with
              | O => Block.transactions b = [Transaction.mk "network" "satoshi" 50.0]
              | S _ =>
                  exists miner pool,
                    Block.transactions b = Transaction.mk "network" miner 6.25 :: pool
              end));
    [| |exact Hr].
  - intros now. reflexivity.
  - intros s miner now last n _ Hl _. apply last_block_length in Hl.
    destruct (List.length (Blockchain.chain s)); [lia|].
    exists miner, (Blockchain.mem_pool s). reflexivity.
Qed.

Lemma reachable_rewards_witness :
  exists miner pool,
    Block.transactions block1 = Transaction.mk "network" miner 6.25 :: pool.
Proof. exact (reachable_rewards ledger2 1 block1 reachable_ledger2 eq_refl). Defined.

(** ** The shape of digests *)

Lemma round_length (st : list N) (kw : N * N) :
  List.length (hashlib.round st kw) = List.length st.
Proof.
  unfold hashlib.round.
  do 9 (destruct st as [|? st]; [reflexivity|]). reflexivity.
Qed.

Lemma fold_round_length (kws : list (N * N)) :
  forall st, List.length (fold_left hashlib.round kws st) = List.length st.
Proof.
  induction kws as [|kw kws IH]; intros st; [reflexivity|].
  cbn [fold_left]. now rewrite IH, round_length.
Qed.

Lemma compress_length (st block : list N) :
  List.length (hashlib.compress st block) = List.length st.
Proof.
  unfold hashlib.compress.
  rewrite length_map, length_combine, fold_round_length. apply Nat.min_id.
Qed.

Lemma blocks_length (fuel : nat) :
  forall st ws, List.length (hashlib.blocks fuel st ws) = List.length st.
Proof.
  induction fuel as [|fuel IH]; intros st ws; [reflexivity|].
  cbn [hashlib.blocks]. destruct ws; [reflexivity|].
  now rewrite IH, compress_length.
Qed.

Lemma be_bytes_length (n : nat) (x : N) : List.length (hashlib.be_bytes n x) = n.
Proof. induction n as [|n IH]; cbn [hashlib.be_bytes List.length]; auto. Qed.

Lemma flat_be_bytes_length (l : list N) :
  List.length (flat_map (hashlib.be_bytes 4) l) = 4 * List.length l.
Proof.
  induction l as [|x l IH]; [reflexivity|].
  cbn [flat_map]. rewrite length_app, IH, be_bytes_length. cbn [List.length]. lia.
Qed.

Lemma hex_length (bs : bytes) : String.length (hex bs) = 2 * List.length bs.
Proof.
  induction bs as [|b bs IH]; [reflexivity|].
  cbn [hex String.length List.length]. rewrite IH. lia.
Qed.

Lemma sha256_is_digest (x : bytes) : is_digest (sha256 x).
Proof.
  split; [apply hexpairs_sha256|].
  unfold sha256. rewrite hex_length.
  Transparent hashlib.digest.
  unfold hashlib.digest.
  Opaque hashlib.digest.
  rewrite length_map, flat_be_bytes_length, blocks_length. reflexivity.
Qed.

Lemma reduce_digests (layer : list string) : Forall is_digest (MerkleSpec.reduce layer).
Proof.
  induction layer as [| x | x y l IH] using list_pair_ind; cbn; try constructor; auto.
  apply sha256_is_digest.
Qed.

Lemma root_is_digest (layer : list string) (r : string) :
  MerkleSpec.root layer r -> Forall is_digest layer -> is_digest r.
Proof.
  induction 1 as [r -> | h | layer r _ _ IH]; intros Hd.
  - apply sha256_is_digest.
  - now inversion Hd.
  - apply IH, reduce_digests.
Qed.

Lemma root_of_is_digest (txs : list Transaction.t) : is_digest (root_of txs).
Proof.
  destruct (merkle_root_spec _ (tx_hashes_all_hex txs)) as (r & Hr & Hroot).
  pose proof (merkle_root_txs txs) as E. rewrite Hr in E. injection E as <-.
  apply (root_is_digest _ _ Hroot).
  apply Forall_forall. intros h Hin. apply in_map_iff in Hin as (t & <- & _).
  apply sha256_is_digest.
Qed.

(** X9: in a reachable ledger the [prev_hash], the stored Merkle root and
    the header digest of every block are texts of 64 hexadecimal
    characters. *)
Theorem reachable_digests (st : Blockchain.t) (b : Block.t) :
  reachable st ->
  In b (Blockchain.chain st) ->
  is_digest (Block.prev_hash b) /\
  is_digest (Block.merkle_root b) /\
  is_digest (Block.hash b).
Proof.
  intros Hr Hin. apply In_nth_error in Hin as (i & Eb). revert i b Eb.
  apply (reachable_block_ind
           (fun _ b => is_digest (Block.prev_hash b) /\
                       is_digest (Block.merkle_root b) /\
                       is_digest (Block.hash b)));
    [| |exact Hr].
  - intros now. split; [split; reflexivity|].
    split; apply sha256_is_digest.
  - intros s miner now last n _ _ _.
    split; [apply sha256_is_digest|].
    split; [apply root_of_is_digest | apply sha256_is_digest].
Qed.

Lemma reachable_digests_witness :
  is_digest (Block.prev_hash block1) /\
  is_digest (Block.merkle_root block1) /\
  is_digest (Block.hash block1).
Proof.
  apply (reachable_digests ledger2 block1 reachable_ledger2).
  right. now left.
Defined.

(** ** Errors and collisions of the Merkle root *)

Lemma fromhex_raises (n : nat) :
  forall (s : string) (e : exn),
    String.length s <= n -> fromhex s = Raise e -> e = ValueError.
Proof.
  induction n as [|n IH]; intros s e Hlen H.
  - destruct s; [discriminate | cbn in Hlen; lia].
  - destruct s as [|c rest]; [discriminate|].
    cbn [fromhex] in H. cbn [String.length] in Hlen.
    destruct (is_space c); [apply (IH rest e); [lia | exact H]|].
    destruct (digit_value c); [|now injection H].
    destruct rest as [|c' rest']; [now injection H|].
    destruct (digit_value c'); [|now injection H].
    destruct (fromhex rest') eqn:E; [discriminate|].
    cbn [bind] in H. injection H as <-.
    apply (IH rest' _); [cbn [String.length] in Hlen; lia | exact E].
Qed.

Lemma fromhex_cases (s : string) :
  (exists bs, fromhex s = Ok bs) \/ fromhex s = Raise ValueError.
Proof.
  destruct (fromhex s) as [bs|e] eqn:E; [left; eauto|].
  right. now rewrite (fromhex_raises _ s e (le_n _) E).
Qed.

Lemma pair_hashes_all_hex (layer nxt : list string) :
  pair_hashes layer = Ok nxt -> all_hex nxt.
Proof.
  revert nxt.
  induction layer as [| x | x y l IH] using list_pair_ind; intros nxt H.
  - injection H as <-. constructor.
  - cbn in H. destruct (fromhex x); discriminate.
  - cbn [pair_hashes] in H.
    apply bind_Ok in H as (a & _ & H). apply bind_Ok in H as (b & _ & H).
    apply bind_Ok in H as (n & Hn & H). injection H as <-.
    constructor; [apply hexpairs_sha256 | exact (IH _ Hn)].
Qed.

(** On a layer of even length the pairing raises exactly when an element
    is not hexadecimal text, and then [ValueError]. *)
Lemma pair_hashes_raises (layer : list string) :
  Nat.even (List.length layer) = true ->
  forall e,
    pair_hashes layer = Raise e <->
    e = ValueError /\ Exists (fun h => fromhex h = Raise ValueError) layer.
Proof.
  induction layer as [| x | x y l IH] using list_pair_ind; intros He e.
  - split; [discriminate | intros [_ H]; inversion H].
  - discriminate.
  - cbn [pair_hashes]. specialize (IH He).
    destruct (fromhex_cases x) as [(a & Ea) | Ea]; rewrite Ea; cbn [bind].
    2: { split; [intros H; injection H as <-; split; auto; now left |
                 intros [-> _]; reflexivity]. }
    destruct (fromhex_cases y) as [(b & Eb) | Eb]; rewrite Eb; cbn [bind].
    2: { split; [intros H; injection H as <-; split; auto; right; now left |
                 intros [-> _]; reflexivity]. }
    destruct (pair_hashes l) as [nxt|e'] eqn:El; cbn [bind].
    + split; [discriminate|]. intros [-> Hex].
      inversion Hex as [? ? Hx | ? ? Hex']; subst; [congruence|].
      inversion Hex' as [? ? Hy | ? ? Hl]; subst; [congruence|].
      assert (Hr : @Raise (list string) ValueError = Raise ValueError) by reflexivity.
      pose proof (proj2 (IH ValueError) (conj eq_refl Hl)). discriminate.
    + destruct (proj1 (IH e') eq_refl) as [-> Hl].
      split; [intros H; injection H as <-; split; auto; now do 2 right |
              intros [-> _]; reflexivity].
Qed.

Lemma pad_odd_Exists (P : string -> Prop) (layer : list string) :
  Exists P (pad_odd layer) <-> Exists P layer.
Proof.
  unfold pad_odd. destruct (Nat.odd (List.length layer)) eqn:E; [|tauto].
  rewrite Exists_app. split; [|tauto].
  intros [H | H]; [exact H|].
  inversion H as [? ? Hl | ? ? Hn]; subst; [|inversion Hn].
  apply Exists_exists. exists (last layer EmptyString). split; [|exact Hl].
  apply last_In. intros ->. discriminate.
Qed.

(** [merkle_root] above the base cases: one turn of the loop, then the root
    of the next layer. *)
Lemma merkle_root_step (hashes : list string) :
  2 <= List.length hashes ->
  merkle_root hashes =
    nxt <- pair_hashes (pad_odd hashes) ;; merkle_while (List.length nxt) nxt.
Proof.
  intros Hlen. destruct hashes as [|h l]; [cbn in Hlen; lia|].
  change (merkle_root (h :: l)) with (merkle_while (List.length (h :: l)) (h :: l)).
  rewrite merkle_while_unroll by lia.
  apply Nat.ltb_lt in Hlen. now rewrite Hlen.
Qed.

(** X10: [merkle_root] raises nothing but [ValueError], and it raises
    exactly when it is given two or more elements of which one is not
    hexadecimal text for [bytes.fromhex]; a single element is returned as it
    is, hexadecimal or not. *)
Theorem merkle_root_raises (hashes : list string) (e : exn) :
  (merkle_root hashes = Raise e <->
   e = ValueError /\
   2 <= List.length hashes /\
   Exists (fun h => fromhex h = Raise ValueError) hashes) /\
  (forall h, merkle_root [h] = Ok h).
Proof.
  split; [|reflexivity].
  destruct (Nat.lt_ge_cases (List.length hashes) 2) as [Hlt | Hge].
  - split; [|lia]. destruct hashes as [|h [|h' l]]; try discriminate.
    cbn in Hlt. lia.
  - rewrite (merkle_root_step _ Hge).
    pose proof (pair_hashes_raises _ (pad_odd_even hashes)) as Hp.
    destruct (pair_hashes (pad_odd hashes)) as [nxt|e'] eqn:El; cbn [bind].
    + pose proof (pair_hashes_shorter _ _ Hge El) as Hs.
      destruct (merkle_while_root (List.length nxt) nxt (le_n _)) as (r & -> & _).
      * intros ->. cbn in Hs. lia.
      * exact (pair_hashes_all_hex _ _ El).
      * split; [discriminate|]. intros (-> & _ & Hex).
        apply (proj2 (pad_odd_Exists _ hashes)) in Hex.
        pose proof (proj2 (Hp ValueError) (conj eq_refl Hex)). discriminate.
    + destruct (proj1 (Hp e') eq_refl) as [-> Hex].
      apply (proj1 (pad_odd_Exists _ hashes)) in Hex.
      split; [intros H; injection H as <-; auto | intros (-> & _); reflexivity].
Qed.

Lemma pad_odd_idem (layer : list string) : pad_odd (pad_odd layer) = pad_odd layer.
Proof.
  unfold pad_odd at 1. unfold Nat.odd. now rewrite pad_odd_even.
Qed.

Lemma merkle_root_pad_odd (layer : list string) :
  2 <= List.length layer -> merkle_root (pad_odd layer) = merkle_root layer.
Proof.
  intros Hlen. rewrite (merkle_root_step layer Hlen).
  rewrite merkle_root_step by (rewrite pad_odd_length; lia).
  now rewrite pad_odd_idem.
Qed.

(** X11: the root does not tell a sequence of odd length from the same
    sequence with its last element repeated: for three, five, ... elements,
    appending a copy of the last one leaves the result of [merkle_root]
    (value or exception) unchanged. *)
Theorem merkle_root_duplicate_last (hashes : list string) :
  Nat.odd (List.length hashes) = true ->
  2 <= List.length hashes ->
  merkle_root (hashes ++ [last hashes EmptyString]) = merkle_root hashes.
Proof.
  intros Hodd Hlen. rewrite <- (merkle_root_pad_odd hashes Hlen).
  unfold pad_odd. now rewrite Hodd.
Qed.

Lemma merkle_root_duplicate_last_witness :
  merkle_root (map Transaction.hash (Block.transactions block1)
                 ++ [last (map Transaction.hash (Block.transactions block1)) EmptyString])
    = merkle_root (map Transaction.hash (Block.transactions block1)).
Proof.
  apply (merkle_root_duplicate_last (map Transaction.hash (Block.transactions block1))).
  - reflexivity.
  - cbn. lia.
Defined.

(** ** What validation does not see *)

Lemma last_map {A B : Type} (f : A -> B) (l : list A) (d : A) (d' : B) :
  l <> [] -> last (map f l) d' = f (last l d).
Proof.
  induction l as [|x l IH]; intros Hne; [congruence|].
  destruct l as [|y l]; [reflexivity|].
  change (last (map f (x :: y :: l)) d') with (last (map f (y :: l)) d').
  change (last (x :: y :: l) d) with (last (y :: l) d).
  apply IH. discriminate.
Qed.

Lemma root_of_duplicate_last (txs : list Transaction.t) (d : Transaction.t) :
  Nat.odd (List.length txs) = true ->
  2 <= List.length txs ->
  root_of (txs ++ [last txs d]) = root_of txs.
Proof.
  intros Hodd Hlen. unfold root_of.
  rewrite map_app. cbn [map].
  rewrite <- (last_map Transaction.hash txs d EmptyString)
    by (intros ->; cbn in Hlen; lia).
  rewrite <- (merkle_root_pad_odd (map Transaction.hash txs))
    by (rewrite length_map; exact Hlen).
  unfold pad_odd. rewrite length_map. now rewrite Hodd.
Qed.

(** X12: a repeated transaction goes unnoticed.  In a valid chain, in a
    block other than the genesis block that holds an odd number (three or
    more) of transactions, appending a copy of the last transaction leaves
    [valid_chain] true: the recomputed Merkle root and the header digest are
    the same. *)
Theorem duplicate_transaction_undetected (st : Blockchain.t) (i : nat) (b : Block.t)
        (d : Transaction.t) :
  Blockchain.valid_chain st = Ok true ->
  1 <= i ->
  nth_error (Blockchain.chain st) i = Some b ->
  Nat.odd (List.length (Block.transactions b)) = true ->
  2 <= List.length (Block.transactions b) ->
  Blockchain.valid_chain
    (tamper i (Block.set_transactions
                 (Block.transactions b ++ [last (Block.transactions b) d])) st)
    = Ok true.
Proof.
  intros Hv Hi Eb Hodd Hlen.
  destruct (tamper_valid st i b
              (Block.set_transactions
                 (Block.transactions b ++ [last (Block.transactions b) d])) Hv Hi Eb)
    as (prev & _ & Hb & ->).
  f_equal.
  assert (Hh : forall txs, Block.hash (Block.set_transactions txs b) = Block.hash b)
    by reflexivity.
  rewrite Hh, String.eqb_refl, orb_true_r, andb_true_r.
  unfold check_block in *. rewrite Hh.
  cbn [Block.set_transactions Block.prev_hash Block.transactions Block.merkle_root].
  now rewrite (root_of_duplicate_last _ d Hodd Hlen).
Qed.

Lemma duplicate_transaction_undetected_witness :
  Blockchain.valid_chain
    (tamper 1 (Block.set_transactions
                 (Block.transactions block1
                    ++ [last (Block.transactions block1) genesis_tx])) ledger2)
    = Ok true.
Proof.
  apply (duplicate_transaction_undetected ledger2 1 block1 genesis_tx).
  - exact (inv_valid ledger2 (reachable_inv ledger2 reachable_ledger2)).
  - lia.
  - reflexivity.
  - reflexivity.
  - cbn. lia.
Defined.

Lemma chain_ok_prev_digest (g g' : Block.t) (rest : list Block.t) :
  Block.hash g' = Block.hash g -> chain_ok g' rest = chain_ok g rest.
Proof.
  intros Hh. destruct rest as [|c rest]; [reflexivity|].
  cbn [chain_ok]. unfold check_block. now rewrite Hh.
Qed.

(** X13: the transactions of the genesis block are never checked: whatever
    list is written in their place, [valid_chain] returns what it returned
    before, on any ledger. *)
Theorem genesis_transactions_unchecked (st : Blockchain.t) (txs : list Transaction.t) :
  Blockchain.valid_chain (tamper 0 (Block.set_transactions txs) st)
    = Blockchain.valid_chain st.
Proof.
  destruct (Blockchain.chain st) as [|g rest] eqn:Ec.
  - unfold tamper, Blockchain.valid_chain. cbn [Blockchain.chain]. now rewrite Ec.
  - rewrite (valid_chain_chain_ok st g rest Ec).
    rewrite (valid_chain_chain_ok _ (Block.set_transactions txs g) rest)
      by (unfold tamper; cbn [Blockchain.chain]; now rewrite Ec).
    f_equal. now apply chain_ok_prev_digest.
Qed.

Lemma chain_ok_firstn (rest : list Block.t) :
  forall (g : Block.t) (n : nat),
    chain_ok g rest = true -> chain_ok g (firstn n rest) = true.
Proof.
  induction rest as [|b rest IH]; intros g n H.
  - now rewrite firstn_nil.
  - destruct n as [|n]; [reflexivity|].
    cbn [firstn chain_ok] in *. apply andb_prop in H as [Hb Hr].
    now rewrite Hb, (IH b n Hr).
Qed.

(** X14: cutting blocks off the end goes unnoticed: every initial part of
    a valid chain is a valid chain. *)
Theorem truncated_chain_valid (st : Blockchain.t) (n : nat) :
  Blockchain.valid_chain st = Ok true ->
  Blockchain.valid_chain
    (Blockchain.mk (firstn n (Blockchain.chain st)) (Blockchain.mem_pool st)) = Ok true.
Proof.
  intros Hv. destruct (Blockchain.chain st) as [|g rest] eqn:Ec.
  - rewrite firstn_nil. rewrite <- Hv. unfold Blockchain.valid_chain.
    cbn [Blockchain.chain]. now rewrite Ec.
  - rewrite (valid_chain_chain_ok st g rest Ec) in Hv. injection Hv as Hv.
    destruct n as [|n]; [reflexivity|].
    rewrite (valid_chain_chain_ok _ g (firstn n rest)) by reflexivity.
    now rewrite chain_ok_firstn.
Qed.

Lemma truncated_chain_valid_witness :
  Blockchain.valid_chain
    (Blockchain.mk (firstn 1 (Blockchain.chain ledger2)) (Blockchain.mem_pool ledger2))
    = Ok true.
Proof.
  exact (truncated_chain_valid ledger2 1
           (inv_valid ledger2 (reachable_inv ledger2 reachable_ledger2))).
Defined.

(** ** The canonical text does not depend on the order of insertion *)

Lemma ltb_Lt (a b : string) : String.ltb a b = true <-> String.compare a b = Lt.
Proof.
  unfold String.ltb. destruct (String.compare a b); split; congruence.
Qed.

Lemma ltb_trans (a b c : string) :
  String.ltb a b = true -> String.ltb b c = true -> String.ltb a c = true.
Proof.
  rewrite !ltb_Lt. intros H1 H2.
  apply OrderedTypeEx.String_as_OT.cmp_lt in H1, H2.
  apply OrderedTypeEx.String_as_OT.cmp_lt.
  exact (OrderedTypeEx.String_as_OT.lt_trans _ _ _ H1 H2).
Qed.

Lemma ltb_irrefl (a : string) : String.ltb a a = false.
Proof.
  destruct (String.ltb a a) eqn:E; [|reflexivity].
  apply ltb_Lt, OrderedTypeEx.String_as_OT.cmp_lt in E.
  apply OrderedTypeEx.String_as_OT.lt_not_eq in E. exfalso. now apply E.
Qed.

Lemma ltb_total (a b : string) :
  a <> b -> String.ltb a b = false -> String.ltb b a = true.
Proof.
  intros Hne H. apply ltb_Lt. rewrite String.compare_antisym.
  unfold String.ltb in H. destruct (String.compare a b) eqn:E;
    [apply String.compare_eq_iff in E; congruence | discriminate | reflexivity].
Qed.

Lemma insert_item_perm (kv : string * json.value) (l : json.dict) :
  Permutation (json.insert_item kv l) (kv :: l).
Proof.
  induction l as [|kv' l IH]; [reflexivity|].
  cbn [json.insert_item]. destruct (String.ltb (fst kv) (fst kv')); [reflexivity|].
  rewrite IH. apply perm_swap.
Qed.

Lemma sort_from_perm (d : json.dict) :
  forall acc, Permutation (fold_left (fun a kv => json.insert_item kv a) d acc) (d ++ acc).
Proof.
  induction d as [|kv d IH]; intros acc; [reflexivity|].
  cbn [fold_left app]. rewrite IH, insert_item_perm.
  symmetry. apply Permutation_middle.
Qed.

Lemma sort_keys_perm (d : json.dict) : Permutation (json.sort_keys d) d.
Proof.
  unfold json.sort_keys. rewrite sort_from_perm. now rewrite app_nil_r.
Qed.

Lemma insert_item_sorted (kv : string * json.value) (l : json.dict) :
  StronglySorted key_lt l ->
  ~ In (fst kv) (map fst l) ->
  StronglySorted key_lt (json.insert_item kv l).
Proof.
  induction l as [|kv' l IH]; intros Hs Hnin.
  - repeat constructor.
  - inversion Hs as [|? ? Hs' Hall]; subst. cbn [json.insert_item].
    destruct (String.ltb (fst kv) (fst kv')) eqn:E.
    + constructor; [exact Hs|]. constructor; [exact E|].
      eapply Forall_impl; [|exact Hall]. intros x Hx. exact (ltb_trans _ _ _ E Hx).
    + assert (Hlt : key_lt kv' kv).
      { apply ltb_total; [|exact E]. intros Heq. apply Hnin. left. now symmetry. }
      constructor.
      * apply IH; [exact Hs'|]. intros Hin. apply Hnin. now right.
      * apply Forall_forall. intros x Hx.
        apply (Permutation_in _ (insert_item_perm kv l)) in Hx as [<- | Hx];
          [exact Hlt|].
        rewrite Forall_forall in Hall. now apply Hall.
Qed.

Lemma sort_from_sorted (d : json.dict) :
  forall acc,
    StronglySorted key_lt acc ->
    NoDup (map fst d ++ map fst acc) ->
    StronglySorted key_lt (fold_left (fun a kv => json.insert_item kv a) d acc).
Proof.
  induction d as [|kv d IH]; intros acc Hs Hnd; [exact Hs|].
  cbn [fold_left]. cbn [map app] in Hnd. inversion Hnd as [|? ? Hnin Hnd']; subst.
  apply IH.
  - apply insert_item_sorted; [exact Hs|]. intros Hin. apply Hnin, in_or_app. now right.
  - apply (Permutation_NoDup (l := fst kv :: map fst d ++ map fst acc)); [|exact Hnd].
    rewrite (Permutation_map fst (insert_item_perm kv acc)). cbn [map].
    apply Permutation_middle.
Qed.

Lemma sort_keys_sorted (d : json.dict) :
  NoDup (map fst d) -> StronglySorted key_lt (json.sort_keys d).
Proof.
  intros Hnd. apply sort_from_sorted; [constructor|]. now rewrite app_nil_r.
Qed.

Lemma sorted_perm_eq (l1 : json.dict) :
  forall l2,
    StronglySorted key_lt l1 -> StronglySorted key_lt l2 ->
    Permutation l1 l2 -> l1 = l2.
Proof.
  induction l1 as [|a l1 IH]; intros l2 H1 H2 Hp.
  - apply Permutation_nil in Hp. now subst.
  - destruct l2 as [|b l2]; [symmetry in Hp; now apply Permutation_nil in Hp|].
    inversion H1 as [|? ? H1' Ha]; inversion H2 as [|? ? H2' Hb]; subst.
    rewrite Forall_forall in Ha, Hb.
    assert (Hab : a = b).
    { destruct (Permutation_in a Hp (or_introl eq_refl)) as [E | Hin]; [now symmetry|].
      symmetry in Hp.
      destruct (Permutation_in b Hp (or_introl eq_refl)) as [E | Hin']; [exact E|].
      pose proof (ltb_trans _ _ _ (Hb a Hin) (Ha b Hin')) as Hc.
      unfold key_lt in Hc. now rewrite ltb_irrefl in Hc. }
    subst b. f_equal. apply IH; [exact H1' | exact H2' |].
    exact (Permutation_cons_inv Hp).
Qed.

(** X15: [jhash] is stable under the order of insertion: two dictionaries
    with the same items (no key twice), inserted in any two orders, have the
    same canonical text and the same digest. *)
Theorem jhash_insertion_order (d1 d2 : json.dict) :
  NoDup (map fst d1) ->
  Permutation d1 d2 ->
  json.dumps d1 = json.dumps d2 /\ jhash d1 = jhash d2.
Proof.
  intros Hnd Hp.
  assert (Hs : json.sort_keys d1 = json.sort_keys d2).
  { apply sorted_perm_eq.
    - now apply sort_keys_sorted.
    - apply sort_keys_sorted.
      exact (Permutation_NoDup (Permutation_map fst Hp) Hnd).
    - now rewrite !sort_keys_perm. }
  unfold jhash, json.dumps. now rewrite Hs.
Qed.

Lemma jhash_insertion_order_witness :
  json.dumps (Block.header_dict block1) = json.dumps (rev (Block.header_dict block1)) /\
  jhash (Block.header_dict block1) = jhash (rev (Block.header_dict block1)).
Proof.
  apply (jhash_insertion_order (Block.header_dict block1)).
  - cbn [Block.header_dict map fst].
    repeat (constructor;
            [cbn [In]; intros H;
             repeat (destruct H as [H | H]; [discriminate H|]); exact H|]).
    constructor.
  - apply Permutation_rev.
Defined.

(** ** The digest of a transaction *)

Lemma sorted_asdict (t : Transaction.t) :
  json.sort_keys (Transaction.asdict t) =
    [ ("amount"%string, json.JFloat (Transaction.amount t));
      ("recipient"%string, json.JStr (Transaction.recipient t));
      ("sender"%string, json.JStr (Transaction.sender t)) ].
Proof. reflexivity. Qed.

Lemma dumps_asdict (t : Transaction.t) :
  json.dumps (Transaction.asdict t) = transaction_text_of t.
Proof.
  unfold json.dumps. rewrite sorted_asdict.
  unfold transaction_text_of, json.dumps_item.
  cbn [map json.join fst snd json.dumps_value String.concat].
  repeat (progress (rewrite ?string_app_assoc; cbn [append])). reflexivity.
Qed.

(** Cancellation in texts. *)
Lemma append_inv_head (p x y : string) : append p x = append p y -> x = y.
Proof.
  induction p as [|c p IH]; cbn [append]; intros H; [exact H|].
  injection H as H. exact (IH H).
Qed.

Lemma append_length (x y : string) :
  String.length (append x y) = String.length x + String.length y.
Proof. induction x as [|c x IH]; cbn [append String.length]; [reflexivity|]. now rewrite IH. Qed.

Lemma append_inv_tail (s : string) :
  forall x y : string, append x s = append y s -> x = y.
Proof.
  induction x as [|c x IH]; intros [|d y] H; cbn [append] in H.
  - reflexivity.
  - apply (f_equal String.length) in H. cbn [String.length] in H.
    rewrite append_length in H. lia.
  - apply (f_equal String.length) in H. cbn [String.length] in H.
    rewrite append_length in H. lia.
  - injection H as -> H. f_equal. exact (IH y H).
Qed.

Ltac normalize_text H :=
  cbn [String.concat Block.index Block.timestamp Block.prev_hash Block.merkle_root
       Block.nonce Transaction.sender Transaction.recipient Transaction.amount] in H;
  repeat (progress (rewrite ?string_app_assoc in H; cbn [append] in H)).

Ltac strip_prefix H :=
  repeat first [ apply append_inv_head in H | injection H as H ].

(** The canonical text determines the fields: an escaped character reads
    back, so a quoted string ends where its closing quote stands, and the
    text of a float has no comma. *)
Lemma unescape_escape (c : ascii) (x : string) :
  unescape (append (json.escape c) x) = Some (c, x).
Proof. destruct c as [[] [] [] [] [] [] [] []]; reflexivity. Qed.

Lemma escape_all_inj (s : string) :
  forall (s' r r' : string),
    append (json.escape_all s) (String json.quote r)
    = append (json.escape_all s') (String json.quote r') ->
    s = s' /\ r = r'.
Proof.
  induction s as [|c s IH]; intros [|c' s'] r r' H; cbn [json.escape_all append] in H.
  - injection H as ->. now split.
  - rewrite string_app_assoc in H. apply (f_equal unescape) in H.
    rewrite unescape_escape in H. discriminate.
  - rewrite string_app_assoc in H. apply (f_equal unescape) in H.
    rewrite unescape_escape in H. discriminate.
  - rewrite !string_app_assoc in H. apply (f_equal unescape) in H.
    rewrite !unescape_escape in H. injection H as -> H.
    destruct (IH s' r r' H) as [-> ->]. now split.
Qed.

Lemma dumps_str_inj (s s' r r' : string) :
  append (json.dumps_str s) r = append (json.dumps_str s') r' -> s = s' /\ r = r'.
Proof.
  unfold json.dumps_str. cbn [append]. rewrite !string_app_assoc. cbn [append].
  intros H. injection H as H. now apply escape_all_inj.
Qed.

Lemma no_comma_app (a b : string) :
  no_comma a = true -> no_comma b = true -> no_comma (append a b) = true.
Proof.
  induction a as [|c a IH]; cbn [append no_comma]; [auto|].
  rewrite !andb_true_iff. intros [Hc Ha] Hb. auto.
Qed.

Lemma no_comma_substring (s : string) :
  forall n m : nat, no_comma s = true -> no_comma (substring n m s) = true.
Proof.
  induction s as [|c s IH]; intros [|n] [|m] H; cbn [substring no_comma] in *;
    try reflexivity.
  - apply andb_true_iff in H. destruct H as [Hc Hs]. rewrite Hc. cbn [andb]. auto.
  - apply andb_true_iff in H. destruct H as [Hc Hs]. auto.
  - apply andb_true_iff in H. destruct H as [Hc Hs]. auto.
Qed.

Lemma no_comma_zeros (n : nat) : no_comma (pyfloat.zeros n) = true.
Proof. induction n as [|n IH]; [reflexivity|]. cbn [pyfloat.zeros no_comma]. now rewrite IH. Qed.

Lemma no_comma_digits (fuel : nat) :
  forall (c : Z) (acc : string),
    no_comma acc = true -> no_comma (pyfloat.digits_of fuel c acc) = true.
Proof.
  induction fuel as [|fuel IH]; intros c acc H; cbn [pyfloat.digits_of]; [exact H|].
  assert (Hd : no_comma (String (ascii_of_N (Z.to_N (48 + c mod 10))) acc) = true).
  { cbn [no_comma]. rewrite H, andb_true_r. apply negb_true_iff, Ascii.eqb_neq.
    intros E. apply (f_equal N_of_ascii) in E.
    assert (Hm : (0 <= c mod 10 < 10)%Z) by (apply Z.mod_pos_bound; lia).
    rewrite N_ascii_embedding in E by lia.
    change (N_of_ascii ",") with 44%N in E. lia. }
  destruct (c <? 10)%Z; [exact Hd|]. now apply IH.
Qed.

Lemma no_comma_str_int (c : Z) : no_comma (pyfloat.str_int c) = true.
Proof.
  unfold pyfloat.str_int. destruct (c <? 0)%Z.
  - cbn [no_comma]. now rewrite no_comma_digits.
  - now apply no_comma_digits.
Qed.

Lemma no_comma_format_r (s : bool) (ds : string) (decpt : Z) :
  no_comma ds = true -> no_comma (pyfloat.format_r s ds decpt) = true.
Proof.
  intros H. unfold pyfloat.format_r. cbv zeta.
  assert (Hb : forall body, no_comma body = true ->
                            no_comma (if s then String "-" body else body) = true).
  { intros body Hbody. destruct s; [cbn [no_comma]; now rewrite Hbody|exact Hbody]. }
  apply Hb.
  destruct ((decpt <=? -4)%Z || (16 <? decpt)%Z).
  - apply no_comma_app; [now apply no_comma_substring|].
    apply no_comma_app.
    + destruct (1 <? Z.of_nat (String.length ds))%Z; [|reflexivity].
      cbn [no_comma]. unfold pyfloat.substr_from. now rewrite no_comma_substring.
    + cbn [no_comma].
      assert (He : forall z, no_comma (if (Z.abs z <? 10)%Z
                                       then String "0" (pyfloat.str_int (Z.abs z))
                                       else pyfloat.str_int (Z.abs z)) = true).
      { intros z. destruct (Z.abs z <? 10)%Z; cbn [no_comma];
          now rewrite no_comma_str_int. }
      rewrite He. now destruct (decpt - 1 <? 0)%Z.
  - destruct (decpt <=? 0)%Z.
    + cbn [append no_comma]. apply no_comma_app; [apply no_comma_zeros|exact H].
    + destruct (decpt <? Z.of_nat (String.length ds))%Z.
      * apply no_comma_app; [now apply no_comma_substring|].
        cbn [no_comma]. unfold pyfloat.substr_from. now rewrite no_comma_substring.
      * apply no_comma_app; [exact H|]. apply no_comma_app; [apply no_comma_zeros|reflexivity].
Qed.

Lemma no_comma_repr (f : float) : no_comma (pyfloat.repr f) = true.
Proof.
  Transparent pyfloat.repr.
  unfold pyfloat.repr.
  Opaque pyfloat.repr.
  destruct (Prim2SF f) as [s|s| |s m e].
  - now apply no_comma_format_r.
  - now destruct s.
  - reflexivity.
  - destruct (pyfloat.fraction m e) as [num den].
    destruct (pyfloat.shortest _ _ _ _ _ _ _) as [c E].
    destruct (pyfloat.strip_zeros _ _ _) as [c' E'].
    apply no_comma_format_r, no_comma_str_int.
Qed.

Lemma no_comma_dumps_float (f : float) : no_comma (json.dumps_float f) = true.
Proof.
  unfold json.dumps_float. destruct (Prim2SF f) as [s|s| |s m e];
    try apply no_comma_repr; [now destruct s|reflexivity].
Qed.

Lemma split_at_comma (a : string) :
  forall a' r r' : string,
    no_comma a = true -> no_comma a' = true ->
    append a (String "," r) = append a' (String "," r') ->
    a = a' /\ r = r'.
Proof.
  induction a as [|c a IH]; intros [|c' a'] r r' Ha Ha' H;
    cbn [append no_comma] in *.
  - injection H as ->. now split.
  - injection H as <- _. discriminate.
  - injection H as -> _. discriminate.
  - injection H as -> H. apply andb_true_iff in Ha, Ha'.
    destruct (IH a' r r' (proj2 Ha) (proj2 Ha') H) as [-> ->]. now split.
Qed.

Lemma transaction_text_inj (t t' : Transaction.t) :
  transaction_text_of t = transaction_text_of t' ->
  Transaction.sender t = Transaction.sender t' /\
  Transaction.recipient t = Transaction.recipient t' /\
  json.dumps_float (Transaction.amount t) = json.dumps_float (Transaction.amount t').
Proof.
  unfold transaction_text_of. intros H. normalize_text H. strip_prefix H.
  apply split_at_comma in H; try apply no_comma_dumps_float.
  destruct H as [Ha H]. strip_prefix H.
  rewrite !string_app_assoc in H. cbn [append] in H.
  apply escape_all_inj in H. destruct H as [Hr H]. strip_prefix H.
  apply escape_all_inj in H. destruct H as [Hs _]. auto.
Qed.


(** The two zeros are amounts with different texts, hence different digests. *)
Example signed_zero_amounts_differ :
  json.dumps_float 0.0 <> json.dumps_float (-0.0) /\
  Transaction.hash (Transaction.mk "Alice" "Bob" 0.0)
    <> Transaction.hash (Transaction.mk "Alice" "Bob" (-0.0)).
Proof. split; vm_compute; discriminate. Qed.

(** ** The display view *)

Lemma valid_linked (st : Blockchain.t) (i : nat) (b b' : Block.t) :
  Blockchain.valid_chain st = Ok true ->
  nth_error (Blockchain.chain st) i = Some b ->
  nth_error (Blockchain.chain st) (S i) = Some b' ->
  Block.prev_hash b' = Block.hash b.
Proof.
  rewrite valid_chain_forallb. intros Hv Eb Eb'. injection Hv as Hv.
  rewrite forallb_forall in Hv.
  assert (Hlt : S i < List.length (Blockchain.chain st))
    by (apply nth_error_Some; congruence).
  specialize (Hv (S i)). unfold check_at in Hv.
  cbn [Nat.sub] in Hv. rewrite Nat.sub_0_r, Eb, Eb' in Hv.
  assert (Hc : check_block b b' = true) by (apply Hv, in_seq; lia).
  apply check_block_ok in Hc. apply Hc.
Qed.

(** X17: [to_dict] gives one entry per block, in the order of the chain.
    The entry of a block shows its index, its timestamp rounded to six
    decimal places (not the stored one), its header digest under the key
    hash, and its transactions in their order; in the view of a valid chain
    the [prev_hash] of every entry is the hash shown by the entry before. *)
Theorem to_dict_view (st : Blockchain.t) :
  List.length (to_dict st) = List.length (Blockchain.chain st) /\
  (forall i b,
     nth_error (Blockchain.chain st) i = Some b ->
     exists e,
       nth_error (to_dict st) i = Some e /\
       lookup "index" e = Some (PInt (Block.index b)) /\
       lookup "timestamp" e = Some (PFloat (pyfloat.round6 (Block.timestamp b))) /\
       lookup "nonce" e = Some (PInt (Block.nonce b)) /\
       lookup "hash" e = Some (PStr (Block.hash b)) /\
       lookup "transactions" e
         = Some (PList (map (fun t =>
                               PDict [ ("sender"%string, PStr (Transaction.sender t));
                                       ("recipient"%string, PStr (Transaction.recipient t));
                                       ("amount"%string, PFloat (Transaction.amount t)) ])
                            (Block.transactions b)))) /\
  (Blockchain.valid_chain st = Ok true ->
   forall i e e',
     nth_error (to_dict st) i = Some e ->
     nth_error (to_dict st) (S i) = Some e' ->
     lookup "prev_hash" e' = lookup "hash" e).
Proof.
  split; [apply length_map|]. split.
  - intros i b Eb. unfold to_dict. rewrite nth_error_map, Eb. cbn [option_map].
    eexists. split; [reflexivity|]. repeat split.
  - intros Hv i e e'. unfold to_dict. rewrite !nth_error_map.
    destruct (nth_error (Blockchain.chain st) i) as [b|] eqn:Eb; [|discriminate].
    destruct (nth_error (Blockchain.chain st) (S i)) as [b'|] eqn:Eb'; [|discriminate].
    cbn [option_map]. intros He He'. injection He as <-. injection He' as <-.
    change (Some (PStr (Block.prev_hash b')) = Some (PStr (Block.hash b))).
    now rewrite (valid_linked st i b b' Hv Eb Eb').
Qed.

(** * Tamper detection *)

(** What validation compares are digests.  A write to a stored field is
    noticed when it changes the text that is hashed and the digest changes
    with the text; this part follows a write from the field to the verdict
    of [valid_chain]. *)

(** ** Integers read back from their text *)

Lemma digits_of_acc (fuel : nat) :
  forall (c : Z) (acc : string),
    pyfloat.digits_of fuel c acc = append (pyfloat.digits_of fuel c EmptyString) acc.
Proof.
  induction fuel as [|fuel IH]; intros c acc; cbn [pyfloat.digits_of]; [reflexivity|].
  destruct (c <? 10)%Z; [reflexivity|].
  rewrite (IH _ (String _ acc)), (IH _ (String _ EmptyString)).
  now rewrite string_app_assoc.
Qed.

Lemma num_of_app (s : string) :
  forall (d : ascii) (acc : Z),
    num_of (append s (String d EmptyString)) acc
    = (10 * num_of s acc + (Z.of_N (N_of_ascii d) - 48))%Z.
Proof.
  induction s as [|c s IH]; intros d acc; cbn [append num_of]; [reflexivity|].
  apply IH.
Qed.

Lemma digit_value_of (c : Z) :
  (0 <= c)%Z ->
  (Z.of_N (N_of_ascii (ascii_of_N (Z.to_N (48 + c mod 10)))) - 48 = c mod 10)%Z.
Proof.
  intros Hc. assert (H : (0 <= c mod 10 < 10)%Z) by (apply Z.mod_pos_bound; lia).
  rewrite N_ascii_embedding by lia. lia.
Qed.

(** The digits written for [c] read back as [c]. *)
Lemma num_digits (fuel : nat) :
  forall c : Z,
    (0 <= c < 10 ^ Z.of_nat fuel)%Z ->
    num_of (pyfloat.digits_of fuel c EmptyString) 0 = c.
Proof.
  induction fuel as [|fuel IH]; intros c Hc.
  - cbn in Hc. cbn. lia.
  - cbn [pyfloat.digits_of]. destruct (Z.ltb_spec c 10) as [Hlt|Hge].
    + cbn [num_of]. rewrite digit_value_of by lia. rewrite Z.mod_small; lia.
    + rewrite digits_of_acc, num_of_app, digit_value_of by lia.
      rewrite IH.
      * pose proof (Z.div_mod c 10). lia.
      * rewrite Nat2Z.inj_succ, Z.pow_succ_r in Hc by lia.
        split; [apply Z.div_pos; lia|]. apply Z.div_lt_upper_bound; lia.
Qed.

(** The fuel of [str_int] covers all the digits. *)
Lemma enough_digits (c : Z) :
  (0 <= c)%Z -> (c < 10 ^ Z.of_nat (S (Z.to_nat (Z.log2 c))))%Z.
Proof.
  intros Hc. rewrite Nat2Z.inj_succ, Z2Nat.id by apply Z.log2_nonneg.
  destruct (Z.eq_dec c 0) as [->|Hn]; [cbn; lia|].
  assert (H : (c < 2 ^ Z.succ (Z.log2 c))%Z) by (apply Z.log2_spec; lia).
  assert (H' : (2 ^ Z.succ (Z.log2 c) <= 10 ^ Z.succ (Z.log2 c))%Z).
  { apply Z.pow_le_mono_l. lia. }
  lia.
Qed.

Lemma digits_of_head (fuel : nat) :
  forall (c : Z) (acc : string),
    exists (k : Z) (rest : string),
      (0 <= k < 10)%Z /\
      pyfloat.digits_of (S fuel) c acc = String (ascii_of_N (Z.to_N (48 + k))) rest.
Proof.
  induction fuel as [|fuel IH]; intros c acc.
  - exists (c mod 10)%Z. cbn [pyfloat.digits_of].
    destruct (c <? 10)%Z; eexists; (split; [apply Z.mod_pos_bound; lia|reflexivity]).
  - change (pyfloat.digits_of (S (S fuel)) c acc)
      with (let acc' := String (ascii_of_N (Z.to_N (48 + c mod 10))) acc in
            if (c <? 10)%Z then acc' else pyfloat.digits_of (S fuel) (c / 10) acc').
    cbv zeta. destruct (c <? 10)%Z.
    + exists (c mod 10)%Z. eexists. split; [apply Z.mod_pos_bound; lia|reflexivity].
    + apply IH.
Qed.

Lemma digit_not_minus (k : Z) :
  (0 <= k < 10)%Z -> Ascii.eqb (ascii_of_N (Z.to_N (48 + k))) "-" = false.
Proof.
  intros Hk. apply Ascii.eqb_neq. intros H.
  apply (f_equal N_of_ascii) in H. rewrite N_ascii_embedding in H by lia.
  change (N_of_ascii "-") with 45%N in H. lia.
Qed.

Lemma int_of_str_int (c : Z) : int_of (pyfloat.str_int c) = c.
Proof.
  unfold pyfloat.str_int. destruct (Z.ltb_spec c 0) as [Hneg|Hpos].
  - cbn [int_of]. rewrite Ascii.eqb_refl, num_digits; [lia|].
    split; [lia|]. apply enough_digits; lia.
  - destruct (digits_of_head (Z.to_nat (Z.log2 c)) c EmptyString) as (k & rest & Hk & E).
    pose proof (num_digits (S (Z.to_nat (Z.log2 c))) c
                  (conj Hpos (enough_digits c Hpos))) as Hn.
    rewrite E in *. cbn [int_of]. now rewrite digit_not_minus.
Qed.

(** Integers that differ have different texts. *)
Lemma str_int_inj (c c' : Z) : pyfloat.str_int c = pyfloat.str_int c' -> c = c'.
Proof.
  intros H. rewrite <- (int_of_str_int c), <- (int_of_str_int c'). now rewrite H.
Qed.

(** ** The texts that are hashed *)

Lemma block_hash_text (b : Block.t) : Block.hash b = text_digest (header_text b).
Proof. unfold Block.hash, jhash, text_digest. now rewrite dumps_header. Qed.

Lemma transaction_hash_text (t : Transaction.t) :
  Transaction.hash t = text_digest (transaction_text_of t).
Proof. unfold Transaction.hash, jhash, text_digest. now rewrite dumps_asdict. Qed.

(** A header text that is unchanged by a write to a field shows that the
    text of the field is unchanged. *)
Lemma header_text_index (b : Block.t) (v : Z) :
  header_text (Block.set_index v b) = header_text b -> v = Block.index b.
Proof.
  unfold header_text, Block.set_index. intros H. normalize_text H.
  strip_prefix H. apply append_inv_tail in H. now apply str_int_inj.
Qed.

Lemma header_text_nonce (b : Block.t) (v : Z) :
  header_text (Block.set_nonce v b) = header_text b -> v = Block.nonce b.
Proof.
  unfold header_text, Block.set_nonce. intros H. normalize_text H.
  strip_prefix H. apply append_inv_tail in H. now apply str_int_inj.
Qed.

Lemma header_text_timestamp (b : Block.t) (v : float) :
  header_text (Block.set_timestamp v b) = header_text b ->
  json.dumps_float (pyfloat.round6 v) = json.dumps_float (pyfloat.round6 (Block.timestamp b)).
Proof.
  unfold header_text, Block.set_timestamp. intros H. normalize_text H.
  strip_prefix H. now apply append_inv_tail in H.
Qed.

(** Timestamps with the same rounding give the same header text. *)
Lemma header_text_rounded (b : Block.t) (v : float) :
  pyfloat.round6 v = pyfloat.round6 (Block.timestamp b) ->
  header_text (Block.set_timestamp v b) = header_text b.
Proof.
  unfold header_text, Block.set_timestamp.
  cbn [Block.index Block.timestamp Block.prev_hash Block.merkle_root Block.nonce].
  now intros ->.
Qed.

Lemma transaction_text_amount (tx : Transaction.t) (v : float) :
  transaction_text_of (set_amount v tx) = transaction_text_of tx ->
  json.dumps_float v = json.dumps_float (Transaction.amount tx).
Proof.
  unfold transaction_text_of, set_amount. intros H. normalize_text H.
  strip_prefix H. now apply append_inv_tail in H.
Qed.

(** ** Collisions *)

Lemma no_collisions_incl {A : Type} (h : A -> string) (l l' : list A) :
  incl l' l -> no_collisions h l -> no_collisions h l'.
Proof. intros Hi Hn x y Hx Hy. apply Hn; now apply Hi. Qed.

Lemma bytes_eqb_eq (x : bytes) : forall y, bytes_eqb x y = true -> x = y.
Proof.
  induction x as [|a x IH]; intros [|b y]; cbn [bytes_eqb]; try discriminate; [reflexivity|].
  rewrite andb_true_iff. intros [Ha Hx]. f_equal; [now apply Byte.byte_dec_bl|now apply IH].
Qed.

Lemma spec_eqb_eq (x y : spec_float) : spec_eqb x y = true -> x = y.
Proof.
  destruct x as [s|s| |s m e], y as [s'|s'| |s' m' e']; cbn [spec_eqb]; try discriminate.
  - intros H. now rewrite (Bool.eqb_prop _ _ H).
  - intros H. now rewrite (Bool.eqb_prop _ _ H).
  - reflexivity.
  - rewrite !andb_true_iff. intros [[Hs Hm] He].
    now rewrite (Bool.eqb_prop _ _ Hs), (proj1 (Pos.eqb_eq _ _) Hm), (proj1 (Z.eqb_eq _ _) He).
Qed.

Lemma float_eqb_eq (x y : float) : float_eqb x y = true -> x = y.
Proof. intros H. now apply Prim2SF_inj, spec_eqb_eq. Qed.

Lemma collision_check_sound {A : Type} (eqb : A -> A -> bool) (h : A -> string)
      (l : list A) :
  (forall x y, eqb x y = true -> x = y) ->
  collision_check eqb h l = true -> no_collisions h l.
Proof.
  intros Heq Hc x y Hx Hy E. unfold collision_check in Hc.
  rewrite forallb_forall in Hc.
  specialize (Hc (x, h x) (in_map (fun x => (x, h x)) l x Hx)).
  rewrite forallb_forall in Hc.
  specialize (Hc (y, h y) (in_map (fun x => (x, h x)) l y Hy)).
  cbn [fst snd] in Hc. rewrite E, String.eqb_refl in Hc. now apply Heq.
Qed.

(** ** The leaves of a Merkle tree *)

Lemma digest_length (x : bytes) : List.length (hashlib.digest x) = 32.
Proof.
  Transparent hashlib.digest.
  unfold hashlib.digest.
  Opaque hashlib.digest.
  rewrite length_map, flat_be_bytes_length, blocks_length. reflexivity.
Qed.

Lemma app_inv_length {A : Type} (a : list A) :
  forall a' b b' : list A,
    List.length a = List.length a' -> a ++ b = a' ++ b' -> a = a' /\ b = b'.
Proof.
  induction a as [|x a IH]; intros [|x' a'] b b' Hl H; cbn in Hl; try discriminate.
  - now split.
  - cbn [app] in H. injection H as -> H. injection Hl as Hl.
    destruct (IH a' b b' Hl H) as [-> ->]. now split.
Qed.

(** The next layer holds the digests of [pair_inputs], which are what the
    loop of [merkle_root] hashes. *)
Lemma reduce_pair_inputs (layer : list string) :
  MerkleSpec.reduce layer = map sha256 (pair_inputs layer).
Proof.
  induction layer as [| |l r rest IH] using list_pair_ind; try reflexivity.
  cbn [MerkleSpec.reduce pair_inputs map]. now rewrite IH.
Qed.

Lemma pair_hashes_inputs (layer : list string) :
  all_hex layer -> Nat.even (List.length layer) = true ->
  pair_hashes layer = Ok (map sha256 (pair_inputs layer)).
Proof. intros Hh He. rewrite <- reduce_pair_inputs. now apply pair_hashes_reduce. Qed.

Lemma digests_all_hex (layer : list string) : digests layer -> all_hex layer.
Proof.
  unfold digests, all_hex. apply Forall_impl. intros h [x ->]. apply hexpairs_sha256.
Qed.

Lemma digests_reduce (layer : list string) : digests (MerkleSpec.reduce layer).
Proof.
  rewrite reduce_pair_inputs. apply Forall_forall. intros h Hh.
  apply in_map_iff in Hh. destruct Hh as (x & <- & _). now exists x.
Qed.

Lemma digests_pad_odd (layer : list string) : digests layer -> digests (pad_odd layer).
Proof.
  intros H. unfold pad_odd. destruct (Nat.odd (List.length layer)) eqn:Ho; [|exact H].
  apply Forall_app. split; [exact H|]. constructor; [|constructor].
  destruct layer as [|h layer]; [discriminate|].
  unfold digests in H. rewrite Forall_forall in H. apply H, last_In. discriminate.
Qed.

Lemma digests_tx_hashes (txs : list Transaction.t) : digests (map Transaction.hash txs).
Proof.
  apply Forall_forall. intros h Hh. apply in_map_iff in Hh.
  destruct Hh as (t & <- & _). now exists (encode (json.dumps (Transaction.asdict t))).
Qed.

(** Digests are 32 bytes long, so the concatenation of two of them splits in
    one way. *)
Lemma decode_sha256_inj (x y x' y' : string) :
  (exists a, x = sha256 a) -> (exists a, x' = sha256 a) ->
  (exists a, y = sha256 a) -> (exists a, y' = sha256 a) ->
  MerkleSpec.decode x ++ MerkleSpec.decode y = MerkleSpec.decode x' ++ MerkleSpec.decode y' ->
  x = x' /\ y = y'.
Proof.
  intros [a ->] [a' ->] [c ->] [c' ->]. unfold sha256. rewrite !decode_hex. intros H.
  apply app_inv_length in H; [|now rewrite !digest_length].
  destruct H as [-> ->]. now split.
Qed.

(** Without collisions among the hashed pairs, a layer is determined by
    the next one. *)
Lemma reduce_inj (l1 : list string) :
  forall l2 : list string,
    digests l1 -> digests l2 ->
    List.length l1 = List.length l2 ->
    Nat.even (List.length l1) = true ->
    no_collisions sha256 (pair_inputs l1 ++ pair_inputs l2) ->
    MerkleSpec.reduce l1 = MerkleSpec.reduce l2 ->
    l1 = l2.
Proof.
  induction l1 as [|x|x y l1 IH] using list_pair_ind; intros l2 H1 H2 Hl He Hn E.
  - destruct l2; [reflexivity|discriminate].
  - discriminate.
  - destruct l2 as [|x' [|y' l2]]; try discriminate.
    cbn [MerkleSpec.reduce pair_inputs] in *. injection E as Ehd E.
    inversion H1 as [|? ? Hx H1']; subst. inversion H1' as [|? ? Hy H1'']; subst.
    inversion H2 as [|? ? Hx' H2']; subst. inversion H2' as [|? ? Hy' H2'']; subst.
    apply Hn in Ehd.
    2: { apply in_or_app. left. now left. }
    2: { apply in_or_app. right. now left. }
    destruct (decode_sha256_inj x y x' y' Hx Hx' Hy Hy' Ehd) as [-> ->].
    f_equal. f_equal. apply IH; [exact H1''|exact H2''| | | |exact E].
    + cbn [List.length] in Hl. lia.
    + cbn [List.length] in He. now rewrite Nat.even_succ_succ in He.
    + revert Hn. apply no_collisions_incl. intros z Hz.
      apply in_app_or in Hz. apply in_or_app.
      destruct Hz as [Hz|Hz]; [left|right]; now right.
Qed.

Lemma pad_odd_inj (l1 l2 : list string) :
  List.length l1 = List.length l2 -> pad_odd l1 = pad_odd l2 -> l1 = l2.
Proof.
  unfold pad_odd. intros ->. destruct (Nat.odd (List.length l2)); [|auto].
  intros H. now apply app_inj_tail in H.
Qed.

Lemma merkle_while_reduce (layer : list string) :
  digests layer -> 2 <= List.length layer ->
  merkle_while (List.length layer) layer =
    merkle_while (List.length (MerkleSpec.reduce (pad_odd layer)))
                 (MerkleSpec.reduce (pad_odd layer))
  /\ List.length (pad_odd layer) = 2 * List.length (MerkleSpec.reduce (pad_odd layer))
  /\ List.length (MerkleSpec.reduce (pad_odd layer)) < List.length layer.
Proof.
  intros Hd Hl.
  assert (E : pair_hashes (pad_odd layer) = Ok (MerkleSpec.reduce (pad_odd layer))).
  { apply pair_hashes_reduce; [apply pad_odd_all_hex, digests_all_hex, Hd|apply pad_odd_even]. }
  split; [|split].
  - rewrite merkle_while_unroll by lia.
    replace (1 <? List.length layer) with true by (symmetry; apply Nat.ltb_lt; lia).
    now rewrite E.
  - now apply pair_hashes_length.
  - now apply pair_hashes_shorter.
Qed.

(** Without collisions among the hashed nodes, lists of leaves of the same
    length with the same root are equal. *)
Lemma merkle_leaves_inj (n : nat) :
  forall (l1 l2 : list string) (r : string),
    List.length l1 <= n ->
    List.length l1 = List.length l2 ->
    digests l1 -> digests l2 ->
    no_collisions sha256 (tree_inputs n l1 ++ tree_inputs n l2) ->
    merkle_while (List.length l1) l1 = Ok r ->
    merkle_while (List.length l2) l2 = Ok r ->
    l1 = l2.
Proof.
  induction n as [|n IH]; intros l1 l2 r Hn Hl H1 H2 Hc E1 E2.
  - destruct l1; [|cbn in Hn; lia]. destruct l2; [reflexivity|discriminate].
  - destruct (Nat.le_gt_cases (List.length l1) 1) as [Hs|Hb].
    + destruct l1 as [|h1 [|? ?]]; [| |cbn in Hs; lia];
        destruct l2 as [|h2 [|? ?]]; try discriminate; try reflexivity.
      cbn in E1, E2. congruence.
    + destruct (merkle_while_reduce l1 H1 Hb) as (R1 & P1 & S1).
      destruct (merkle_while_reduce l2 H2 ltac:(lia)) as (R2 & P2 & S2).
      rewrite R1 in E1. rewrite R2 in E2.
      cbn [tree_inputs] in Hc.
      replace (1 <? List.length l1) with true in Hc by (symmetry; apply Nat.ltb_lt; lia).
      replace (1 <? List.length l2) with true in Hc by (symmetry; apply Nat.ltb_lt; lia).
      assert (Hp : List.length (pad_odd l1) = List.length (pad_odd l2))
        by (rewrite !pad_odd_length, Hl; reflexivity).
      assert (E : MerkleSpec.reduce (pad_odd l1) = MerkleSpec.reduce (pad_odd l2)).
      { apply (IH _ _ r); auto using digests_reduce; try lia.
        revert Hc. apply no_collisions_incl. intros z Hz.
        apply in_app_or in Hz. apply in_or_app.
        destruct Hz as [Hz|Hz]; [left|right]; apply in_or_app; now right. }
      apply pad_odd_inj; [exact Hl|].
      apply reduce_inj; auto using digests_pad_odd, pad_odd_even.
      revert Hc. apply no_collisions_incl. intros z Hz.
      apply in_app_or in Hz. apply in_or_app.
      destruct Hz as [Hz|Hz]; [left|right]; apply in_or_app; now left.
Qed.

(** ** The verdict on a block that was written to *)

(** With no collision among the hashed texts, the header digest changes with
    the header text. *)
Lemma block_hash_changed (b b' : Block.t) :
  no_collisions text_digest (hashed_texts b ++ hashed_texts b') ->
  header_text b' <> header_text b ->
  Block.hash b' <> Block.hash b.
Proof.
  intros Hn Ht E. rewrite !block_hash_text in E. apply Ht, Hn; [| |exact E].
  - apply in_or_app. right. now left.
  - apply in_or_app. left. now left.
Qed.

(** With no collision among the hashed texts and nodes, the Merkle root
    changes with the amount of a transaction. *)
Lemma root_of_changed (b : Block.t) (j : nat) (tx : Transaction.t) (v : float) :
  let b' := mutate (SetAmount j v) b in
  nth_error (Block.transactions b) j = Some tx ->
  v <> Transaction.amount tx ->
  no_collisions json.dumps_float (hashed_floats b ++ hashed_floats b') ->
  no_collisions text_digest (hashed_texts b ++ hashed_texts b') ->
  no_collisions sha256 (hashed_nodes b ++ hashed_nodes b') ->
  root_of (Block.transactions b') <> root_of (Block.transactions b).
Proof.
  intros b' Etx Hv Hf Ht Hs E. subst b'.
  unfold hashed_floats, hashed_texts, hashed_nodes in *.
  cbn [mutate Block.set_transactions Block.transactions] in *.
  destruct (update_split (set_amount v) (Block.transactions b) j tx Etx)
    as (pre & post & Eb & Hlen & Eu).
  rewrite Eu, Eb in *. clear Eu Eb Etx.
  set (txs := pre ++ tx :: post) in *.
  set (txs' := pre ++ set_amount v tx :: post) in *.
  assert (Hl : List.length txs' = List.length txs).
  { unfold txs, txs'. rewrite !length_app. reflexivity. }
  assert (Hin : In tx txs) by (apply in_or_app; right; now left).
  assert (Hin' : In (set_amount v tx) txs') by (apply in_or_app; right; now left).
  assert (Hm : map Transaction.hash txs' = map Transaction.hash txs).
  { pose proof (merkle_root_txs txs) as R. pose proof (merkle_root_txs txs') as R'.
    rewrite E in R'.
    assert (N : map Transaction.hash txs <> []).
    { unfold txs. rewrite map_app. cbn [map]. now destruct (map Transaction.hash pre). }
    assert (N' : map Transaction.hash txs' <> []).
    { unfold txs'. rewrite map_app. cbn [map]. now destruct (map Transaction.hash pre). }
    unfold merkle_root in R, R'.
    destruct (map Transaction.hash txs) as [|h hs] eqn:Eh; [contradiction|].
    destruct (map Transaction.hash txs') as [|h' hs'] eqn:Eh'; [contradiction|].
    rewrite <- Eh, <- Eh' in *.
    apply (merkle_leaves_inj (List.length txs) _ _ (root_of txs)).
    - rewrite length_map. lia.
    - now rewrite !length_map.
    - apply digests_tx_hashes.
    - apply digests_tx_hashes.
    - revert Hs. apply no_collisions_incl. intros z Hz.
      apply in_app_or in Hz. apply in_or_app. rewrite Hl.
      destruct Hz as [Hz|Hz]; [now right|now left].
    - exact R'.
    - exact R. }
  unfold txs, txs' in Hm. rewrite !map_app in Hm.
  apply app_inv_length in Hm; [|reflexivity]. destruct Hm as [_ Hm].
  cbn [map] in Hm. injection Hm as Hm.
  rewrite !transaction_hash_text in Hm.
  apply Ht in Hm.
  2: { apply in_or_app. right. right. now apply in_map. }
  2: { apply in_or_app. left. right. now apply in_map. }
  apply transaction_text_amount in Hm. apply Hv, Hf; [| |exact Hm].
  - apply in_or_app. right. right.
    change v with (Transaction.amount (set_amount v tx)). now apply in_map.
  - apply in_or_app. left. right. now apply in_map.
Qed.

(** The verdict on a block whose link, transactions and stored root are
    untouched: [pow] is the difficulty check on the new header digest, [lt]
    says that a block follows, [same] that the header digest is unchanged. *)
Lemma verdict_written (pow lt same : bool) :
  @Ok bool (pow && (negb lt || same)) = Ok false <->
  (lt = true /\ same = false) \/ pow <> true.
Proof.
  destruct pow, lt, same; cbn; split; intros H; try discriminate; auto;
    destruct H as [[? ?]|?]; congruence.
Qed.

(** C1, as the code has it.  On a reachable ledger a different value is
    written to one stored field of a block other than the genesis block.
    Suppose that what validation serializes and hashes for the block, before
    and after the write, is free of collisions: floats that differ have
    different JSON texts, texts that differ have different digests, and so
    have the nodes of the Merkle tree.  Then validation returns a verdict, and
    the verdict is false for a new [prev_hash], a new Merkle root and a new
    amount; for a new index or nonce, unless the block is the last one and
    the new header digest meets the difficulty; for a new timestamp, unless
    it rounds to the same value as the stored one, or the block is the last
    one and the new header digest meets the difficulty.  In the excepted
    cases the verdict is true. *)
Theorem tamper_detection (st : Blockchain.t) (i : nat) (b : Block.t) (m : mutation) :
  reachable st ->
  1 <= i ->
  nth_error (Blockchain.chain st) i = Some b ->
  changes m b ->
  no_collisions json.dumps_float (hashed_floats b ++ hashed_floats (mutate m b)) ->
  no_collisions text_digest (hashed_texts b ++ hashed_texts (mutate m b)) ->
  no_collisions sha256 (hashed_nodes b ++ hashed_nodes (mutate m b)) ->
  (exists v, Blockchain.valid_chain (tamper i (mutate m) st) = Ok v) /\
  (Blockchain.valid_chain (tamper i (mutate m) st) = Ok false <->
   detected (List.length (Blockchain.chain st)) i m b).
Proof.
  intros Hr Hi Eb Hch Hf Ht Hs.
  destruct (tamper_valid st i b (mutate m) (inv_valid st (reachable_inv st Hr)) Hi Eb)
    as (prev & _ & Hb & ->).
  split; [eauto|].
  unfold proof_of_work.
  destruct m as [v | v | v | v | v | j v]; cbn [detected changes] in *.
  - (* index *)
    rewrite (check_block_same_body prev b (mutate (SetIndex v) b) eq_refl eq_refl eq_refl Hb).
    rewrite verdict_written, Nat.ltb_lt, String.eqb_neq.
    assert (Hh : Block.hash (mutate (SetIndex v) b) <> Block.hash b).
    { apply (block_hash_changed _ _ Ht). intros E. now apply header_text_index in E. }
    tauto.
  - (* timestamp *)
    rewrite (check_block_same_body prev b (mutate (SetTimestamp v) b) eq_refl eq_refl eq_refl Hb).
    rewrite verdict_written, Nat.ltb_lt, String.eqb_neq.
    assert (Hh : Block.hash (mutate (SetTimestamp v) b) <> Block.hash b <->
                 pyfloat.round6 v <> pyfloat.round6 (Block.timestamp b)).
    { split.
      - intros Hne E. apply Hne. rewrite !block_hash_text. f_equal.
        now apply header_text_rounded.
      - intros Hne. apply (block_hash_changed _ _ Ht). intros E.
        apply header_text_timestamp in E. apply Hne, Hf; [| |exact E].
        + apply in_or_app. right. now left.
        + apply in_or_app. left. now left. }
    tauto.
  - (* prev_hash *)
    unfold check_block in *. rewrite !andb_true_iff, !String.eqb_eq in Hb.
    destruct Hb as [[Hl Hp] Hm]. cbn [mutate Block.set_prev_hash Block.prev_hash].
    assert (E : String.eqb v (Block.hash prev) = false)
      by (apply String.eqb_neq; congruence).
    rewrite E. cbn [andb]. tauto.
  - (* merkle_root *)
    unfold check_block in *. rewrite !andb_true_iff, !String.eqb_eq in Hb.
    destruct Hb as [[Hl Hp] Hm].
    cbn [mutate Block.set_merkle_root Block.transactions Block.merkle_root].
    assert (E : String.eqb (root_of (Block.transactions b)) v = false)
      by (apply String.eqb_neq; congruence).
    rewrite E, andb_false_r. cbn [andb]. tauto.
  - (* nonce *)
    rewrite (check_block_same_body prev b (mutate (SetNonce v) b) eq_refl eq_refl eq_refl Hb).
    rewrite verdict_written, Nat.ltb_lt, String.eqb_neq.
    assert (Hh : Block.hash (mutate (SetNonce v) b) <> Block.hash b).
    { apply (block_hash_changed _ _ Ht). intros E. now apply header_text_nonce in E. }
    tauto.
  - (* the amount of a transaction *)
    destruct Hch as (tx & Etx & Hv).
    pose proof (root_of_changed b j tx v Etx Hv Hf Ht Hs) as Hroot. cbv zeta in Hroot.
    unfold check_block in *. rewrite !andb_true_iff, !String.eqb_eq in Hb.
    destruct Hb as [[Hl Hp] Hm]. rewrite Hm in Hroot.
    apply String.eqb_neq in Hroot.
    change (Block.merkle_root (mutate (SetAmount j v) b)) with (Block.merkle_root b).
    rewrite Hroot, andb_false_r. cbn [andb]. tauto.
Qed.

(** The theorem on the example: the amount of the second transaction of the
    mined block, 1.2, is overwritten with 100.0.  The three hypotheses on
    collisions are decided by comparing the texts and the digests. *)
Lemma tamper_detection_witness :
  reachable ledger2 /\
  1 <= 1 /\
  nth_error (Blockchain.chain ledger2) 1 = Some block1 /\
  changes (SetAmount 1 100.0) block1 /\
  no_collisions json.dumps_float
    (hashed_floats block1 ++ hashed_floats (mutate (SetAmount 1 100.0) block1)) /\
  no_collisions text_digest
    (hashed_texts block1 ++ hashed_texts (mutate (SetAmount 1 100.0) block1)) /\
  no_collisions sha256
    (hashed_nodes block1 ++ hashed_nodes (mutate (SetAmount 1 100.0) block1)) /\
  Blockchain.valid_chain (tamper 1 (mutate (SetAmount 1 100.0)) ledger2) = Ok false.
Proof.
  assert (Hc : changes (SetAmount 1 100.0) block1).
  { exists (Transaction.mk "Alice" "Bob" 1.2). split; [reflexivity|].
    intros H. apply (f_equal (fun x => PrimFloat.eqb x 100.0)) in H.
    vm_compute in H. discriminate. }
  assert (Hf : no_collisions json.dumps_float
                 (hashed_floats block1
                  ++ hashed_floats (mutate (SetAmount 1 100.0) block1))).
  { apply (collision_check_sound float_eqb); [exact float_eqb_eq|].
    vm_compute. reflexivity. }
  assert (Ht : no_collisions text_digest
                 (hashed_texts block1
                  ++ hashed_texts (mutate (SetAmount 1 100.0) block1))).
  { apply (collision_check_sound String.eqb); [apply String.eqb_eq|].
    vm_compute. reflexivity. }
  assert (Hs : no_collisions sha256
                 (hashed_nodes block1
                  ++ hashed_nodes (mutate (SetAmount 1 100.0) block1))).
  { apply (collision_check_sound bytes_eqb); [exact bytes_eqb_eq|].
    vm_compute. reflexivity. }
  split; [exact reachable_ledger2|]. split; [lia|]. split; [reflexivity|].
  split; [exact Hc|]. split; [exact Hf|]. split; [exact Ht|]. split; [exact Hs|].
  apply (proj2 (tamper_detection ledger2 1 block1 (SetAmount 1 100.0)
                  reachable_ledger2 (le_n 1) eq_refl Hc Hf Ht Hs)).
  exact I.
Defined.

(** C1 as stated fails: the header digest is taken over the timestamp
    rounded to six decimal places, so the next float above the timestamp of
    the mined block of the example, which rounds to the same value, can be
    written into the block and validation still returns true. *)
Lemma tamper_timestamp_undetected :
  reachable ledger2 /\
  nth_error (Blockchain.chain ledger2) 1 = Some block1 /\
  changes (SetTimestamp 0x1.95aecff100001p+30) block1 /\
  Blockchain.valid_chain (tamper 1 (mutate (SetTimestamp 0x1.95aecff100001p+30)) ledger2)
    = Ok true.
Proof.
  split; [exact reachable_ledger2|]. split; [reflexivity|]. split.
  - intros H. apply (f_equal (fun x => PrimFloat.eqb x 1701557244.25)) in H.
    vm_compute in H. discriminate.
  - vm_compute. reflexivity.
Qed.

(** Further assignments on the example: a changed amount, a changed
    [prev_hash] and a changed nonce are noticed; a second nonce that meets
    the difficulty is not, the block being the last of the chain. *)
Example tamper_amount_detected :
  Blockchain.valid_chain (tamper 1 (mutate (SetAmount 1 100.0)) ledger2) = Ok false.
Proof. vm_compute. reflexivity. Qed.

Example tamper_prev_hash_detected :
  Blockchain.valid_chain
    (tamper 1 (mutate (SetPrevHash
       "0000000000000000000000000000000000000000000000000000000000000000")) ledger2)
    = Ok false.
Proof. vm_compute. reflexivity. Qed.

Example tamper_nonce_detected :
  Blockchain.valid_chain (tamper 1 (mutate (SetNonce 4)) ledger2) = Ok false.
Proof. vm_compute. reflexivity. Qed.

Example tamper_second_nonce_undetected :
  Block.nonce block1 = 3%Z /\
  Blockchain.valid_chain (tamper 1 (mutate (SetNonce 1083473)) ledger2) = Ok true.
Proof. vm_compute. split; reflexivity. Qed.
